(** * The free-variable slicing compiler of [ast/lambda.go]

    A shallow embedding of package [ast]: the five node variants, their
    [HasFree] and [CompileFree] methods, and the two entry points
    [CompileSingle] and [CompileAll], followed by the properties of the
    compiler that the design document states. *)

From stdpp Require Import gmap strings list fin_maps.

Set Default Proof Using "Type".

(** ** Package [machine], as far as package [ast] touches it *)

(** A [*machine.Expr]: the address of one cell of the [compiled] slice
    that [CompileAll] allocates; [&compiled[i]] is the index [i]. *)
Abbreviation Ptr := nat.

(** Modelled from the spec: the declaration of [machine.FreeExpr] and of
    its four implementations is not part of package [ast].  The fields
    are those of the struct literals that [CompileFree] builds: a
    variable reference without payload, an abstraction wrapper with the
    [Used] flag and the compiled body, an application wrapper with
    [Ldrop], [Rdrop] and the two compiled sides, and a global reference
    wrapper holding the slot cell.  Every one carries a [Meta] field. *)
Inductive FreeExpr (M : Type) : Type :=
  | FreeVar (Meta : M)
  | FreeAbst (Used : bool) (Body : FreeExpr M) (Meta : M)
  | FreeAppl (Ldrop Rdrop : nat) (Left Right : FreeExpr M) (Meta : M)
  | FreeRef (Ref : Ptr) (Meta : M).

Arguments FreeVar {M} Meta.
Arguments FreeAbst {M} Used Body Meta.
Arguments FreeAppl {M} Ldrop Rdrop Left Right Meta.
Arguments FreeRef {M} Ref Meta.

(** The [Meta] field of the outermost wrapper. *)
Definition FreeMeta {M} (e : FreeExpr M) : M :=
  match e with
  | FreeVar m | FreeAbst _ _ m | FreeAppl _ _ _ _ m | FreeRef _ m => m
  end.

(** Every annotation stored anywhere in an intermediate expression. *)
Fixpoint FreeMetas {M} (e : FreeExpr M) : list M :=
  match e with
  | FreeVar m => [m]
  | FreeAbst _ b m => m :: FreeMetas b
  | FreeAppl _ _ l r m => m :: FreeMetas l ++ FreeMetas r
  | FreeRef _ m => [m]
  end.

Fixpoint FreeExpr_map {M N} (f : M → N) (e : FreeExpr M) : FreeExpr N :=
  match e with
  | FreeVar m => FreeVar (f m)
  | FreeAbst u b m => FreeAbst u (FreeExpr_map f b) (f m)
  | FreeAppl ld rd l r m =>
      FreeAppl ld rd (FreeExpr_map f l) (FreeExpr_map f r) (f m)
  | FreeRef p m => FreeRef p (f m)
  end.

(** ** The syntax tree *)

(** The implementations of interface [Node].  [M] is the type of the
    [Meta interface{}] field. *)
Inductive Node (M : Type) : Type :=
  | Const (Value : FreeExpr M) (Meta : M)
  | Var (Name : string) (Meta : M)
  | Abst (Bound : string) (Body : Node M) (Meta : M)
  | Appl (Left Right : Node M) (Meta : M)
  | Global (Name : string) (Meta : M).

Arguments Const {M} Value Meta.
Arguments Var {M} Name Meta.
Arguments Abst {M} Bound Body Meta.
Arguments Appl {M} Left Right Meta.
Arguments Global {M} Name Meta.

Definition MetaInfo {M} (n : Node M) : M :=
  match n with
  | Const _ m | Var _ m | Abst _ _ m | Appl _ _ m | Global _ m => m
  end.

Fixpoint Node_map {M N} (f : M → N) (n : Node M) : Node N :=
  match n with
  | Const v m => Const (FreeExpr_map f v) (f m)
  | Var x m => Var x (f m)
  | Abst x b m => Abst x (Node_map f b) (f m)
  | Appl l r m => Appl (Node_map f l) (Node_map f r) (f m)
  | Global g m => Global g (f m)
  end.

Record CompileError (M : Type) : Type := mkCompileError {
  ErrNode : Node M;
  Msg : string
}.

Arguments mkCompileError {M} ErrNode Msg.
Arguments ErrNode {M} _.
Arguments Msg {M} _.

(** [fmt.Sprintf("'%s' not defined", name)] *)
Definition not_defined (name : string) : string :=
  "'" +:+ name +:+ "' not defined".

(** What a call can end in: a value with a [nil] error, a [*CompileError],
    or a run-time panic (an index or slice bound out of range, a method
    call on a [nil] interface). *)
Inductive outcome (M A : Type) : Type :=
  | Ok (a : A)
  | Err (e : CompileError M)
  | Panic.

Arguments Ok {M A} a.
Arguments Err {M A} e.
Arguments Panic {M A}.

#[global] Instance outcome_bind {M} : MBind (outcome M) := λ A B k o,
  match o with
  | Ok a => k a
  | Err e => Err e
  | Panic => Panic
  end.

Definition outcome_map {M N A B} (f : M → N) (g : A → B)
    (o : outcome M A) : outcome N B :=
  match o with
  | Ok a => Ok (g a)
  | Err e => Err (mkCompileError (Node_map f (ErrNode e)) (Msg e))
  | Panic => Panic
  end.

(** ** [HasFree] *)

Fixpoint HasFree {M} (n : Node M) (name : string) : bool :=
  match n with
  | Const _ _ => false
  | Var x _ => bool_decide (name = x)
  | Abst x body _ => bool_decide (name ≠ x) && HasFree body name
  | Appl l r _ => HasFree l name || HasFree r name
  | Global _ _ => false
  end.

(** ** [CompileFree] *)

(** The counting loop of [Appl.CompileFree]:
    [for _, name := range free { if side.HasFree(name) { break }; drop++ }]. *)
Fixpoint trim {M} (side : Node M) (free : list string) : nat :=
  match free with
  | [] => 0
  | name :: rest => if HasFree side name then 0 else S (trim side rest)
  end.

(** The slice expression [free[k:]]: it panics when [k] exceeds the
    length. *)
Definition slice_from {M} (k : nat) (free : list string)
    : outcome M (list string) :=
  if decide (k ≤ length free) then Ok (drop k free) else Panic.

Fixpoint CompileFree {M} (n : Node M) (globals : gmap string Ptr)
    (free : list string) : outcome M (FreeExpr M) :=
  match n with
  | Const v _ => Ok v
  | Var x m =>
      match free with
      | name :: _ =>
          if decide (name ≠ x)
          then Err (mkCompileError (Var x m) (not_defined x))
          else Ok (FreeVar m)
      | [] => Err (mkCompileError (Var x m) (not_defined x))
      end
  | Abst x body m =>
      if negb (HasFree body x) then
        b ← CompileFree body globals free ;
        Ok (FreeAbst false b m)
      else
        let freeWithBound := [x] ++ free in
        b ← CompileFree body globals freeWithBound ;
        Ok (FreeAbst true b m)
  | Appl l r m =>
      let ldrop := trim l free in
      let rdrop := trim r free in
      lfree ← slice_from ldrop free ;
      rfree ← slice_from rdrop free ;
      left ← CompileFree l globals lfree ;
      right ← CompileFree r globals rfree ;
      Ok (FreeAppl ldrop rdrop left right m)
  | Global g m =>
      match globals !! g with
      | None => Err (mkCompileError (Global g m) (not_defined g))
      | Some global => Ok (FreeRef global m)
      end
  end.

(** ** The entry points *)

Section entry_points.
Context {M Expr : Type}.

(** The [nil] value of interface type [machine.Expr], with which
    [make([]machine.Expr, n)] fills the new slice. *)
Variable nilExpr : Expr.

(** Modelled from the spec: method [Fill] of [machine.FreeExpr] (the
    operation that instantiates an intermediate expression against a
    run-time environment vector) is declared outside package [ast]; the
    entry points are embedded over an arbitrary such function. *)
Variable Fill : FreeExpr M → list Expr → Expr.

Definition CompileSingle (node : Node M) : outcome M Expr :=
  free ← CompileFree node ∅ [] ;
  Ok (Fill free []).

(** [for i, name := range globalNames { compiledPtrs[name] = &compiled[i] }],
    from index [i] on. *)
Fixpoint fillPtrs (compiled : list Expr) (i : nat) (globalNames : list string)
    (compiledPtrs : gmap string Ptr) : outcome M (gmap string Ptr) :=
  match globalNames with
  | [] => Ok compiledPtrs
  | name :: rest =>
      if decide (i < length compiled)
      then fillPtrs compiled (S i) rest (<[name := i]> compiledPtrs)
      else Panic
  end.

(** The compiling loop, from index [i] on.  [globals[name]] of an absent
    key is the [nil] node, and calling its method panics. *)
Fixpoint compileLoop (globals : gmap string (Node M))
    (compiledPtrs : gmap string Ptr) (i : nat) (globalNames : list string)
    (compiled : list Expr) : outcome M (list Expr) :=
  match globalNames with
  | [] => Ok compiled
  | name :: rest =>
      match globals !! name with
      | None => Panic
      | Some node =>
          compiledFree ← CompileFree node compiledPtrs [] ;
          if decide (i < length compiled)
          then compileLoop globals compiledPtrs (S i) rest
                 (<[i := Fill compiledFree []]> compiled)
          else Panic
      end
  end.

(** [for i, name := range globalNames { compiledMap[name] = compiled[i] }],
    from index [i] on. *)
Fixpoint fillMap (compiled : list Expr) (i : nat) (globalNames : list string)
    (compiledMap : gmap string Expr) : outcome M (gmap string Expr) :=
  match globalNames with
  | [] => Ok compiledMap
  | name :: rest =>
      match compiled !! i with
      | None => Panic
      | Some e => fillMap compiled (S i) rest (<[name := e]> compiledMap)
      end
  end.

(** [CompileAll] once [for name := range globals] has produced
    [globalNames]. *)
Definition CompileAllFrom (globalNames : list string)
    (globals : gmap string (Node M)) : outcome M (gmap string Expr) :=
  let compiled := replicate (length globalNames) nilExpr in
  compiledPtrs ← fillPtrs compiled 0 globalNames ∅ ;
  compiled ← compileLoop globals compiledPtrs 0 globalNames compiled ;
  fillMap compiled 0 globalNames ∅.

(** Ranging over a map visits every key once, in an order that the
    language leaves open. *)
Definition key_order (globals : gmap string (Node M))
    (globalNames : list string) : Prop :=
  NoDup globalNames ∧ list_to_set globalNames = dom globals.

(** [CompileAll globals res]: some run of [CompileAll] ends in [res]. *)
Definition CompileAll (globals : gmap string (Node M))
    (res : outcome M (gmap string Expr)) : Prop :=
  ∃ globalNames,
    key_order globals globalNames ∧ CompileAllFrom globalNames globals = res.

End entry_points.

(** ** Statements of the design document, in its own words *)

(** A position in a term: which way to go down at every node passed. *)
Inductive dir : Type := InBody | InLeft | InRight.

(** The node found at a position, if the position exists. *)
Fixpoint subterm_at {M} (n : Node M) (path : list dir) : option (Node M) :=
  match path, n with
  | [], _ => Some n
  | InBody :: p, Abst _ body _ => subterm_at body p
  | InLeft :: p, Appl l _ _ => subterm_at l p
  | InRight :: p, Appl _ r _ => subterm_at r p
  | _, _ => None
  end.

(** The binders of the abstractions passed on the way to a position. *)
Fixpoint binders_at {M} (n : Node M) (path : list dir) : list string :=
  match path, n with
  | InBody :: p, Abst x body _ => x :: binders_at body p
  | InLeft :: p, Appl l _ _ => binders_at l p
  | InRight :: p, Appl _ r _ => binders_at r p
  | _, _ => []
  end.

(** The part of an intermediate expression found at a position. *)
Fixpoint free_subterm_at {M} (e : FreeExpr M) (path : list dir)
    : option (FreeExpr M) :=
  match path, e with
  | [], _ => Some e
  | InBody :: p, FreeAbst _ body _ => free_subterm_at body p
  | InLeft :: p, FreeAppl _ _ l _ _ => free_subterm_at l p
  | InRight :: p, FreeAppl _ _ _ r _ => free_subterm_at r p
  | _, _ => None
  end.

(** [n] contains an occurrence of [name] that no abstraction within [n]
    binds again. *)
Definition free_occurrence {M} (n : Node M) (name : string) : Prop :=
  ∃ path m, subterm_at n path = Some (Var name m) ∧ name ∉ binders_at n path.

(** [s] is [n] or one of the nodes below it. *)
Definition subterm {M} (s n : Node M) : Prop :=
  ∃ path, subterm_at n path = Some s.

(** The names of the [Global] nodes of a term. *)
Fixpoint global_names {M} (n : Node M) : list string :=
  match n with
  | Const _ _ | Var _ _ => []
  | Abst _ body _ => global_names body
  | Appl l r _ => global_names l ++ global_names r
  | Global g _ => [g]
  end.

(** Every [Var] of the term lies below an abstraction that binds its
    name; [scope] lists the binders of the abstractions around the term. *)
Fixpoint scoped {M} (scope : list string) (n : Node M) : bool :=
  match n with
  | Const _ _ | Global _ _ => true
  | Var x _ => bool_decide (x ∈ scope)
  | Abst x body _ => scoped (x :: scope) body
  | Appl l r _ => scoped scope l && scoped scope r
  end.

(** A closed term built from [Const], [Var], [Abst] and [Appl] only. *)
Definition closed_local {M} (n : Node M) : Prop :=
  global_names n = [] ∧ scoped [] n = true.

(** [k] is the number of leading names of [free] that [side] does not
    reference, counting up to the first referenced name or, when there is
    none, to the end of the list. *)
Definition leading_unreferenced {M} (side : Node M) (free : list string)
    (k : nat) : Prop :=
  (∀ j name, j < k → free !! j = Some name → HasFree side name = false) ∧
  (k = length free ∨ ∃ name, free !! k = Some name ∧ HasFree side name = true).

(** The error names [x] and carries the node [n]. *)
Definition undefined_at {M} (e : CompileError M) (n : Node M) (x : string)
    : Prop :=
  ErrNode e = n ∧ Msg e = not_defined x.

(** Two outcomes of the same kind: both values, the same error, or both
    panics. *)
Definition same_kind {M A} (o o' : outcome M A) : Prop :=
  match o, o' with
  | Ok _, Ok _ => True
  | Err e, Err e' => e = e'
  | Panic, Panic => True
  | _, _ => False
  end.

(** Whether the term of a global compiles against the table. *)
Definition compiles {M} (globals : gmap string (Node M))
    (ptrs : gmap string Ptr) (name : string) : bool :=
  match globals !! name with
  | Some node =>
      match CompileFree node ptrs [] with Ok _ => true | _ => false end
  | None => false
  end.

(** ** The unused helper [reverse] *)

Module InPlace.

(** The index expression [free[i]]: out of range, also below zero, it
    panics ([None]). *)
Definition at_index (free : list string) (i : Z) : option string :=
  if decide (0 ≤ i)%Z then free !! Z.to_nat i else None.

(** [free[i], free[j] = free[j], free[i]]: both are read, then both are
    written. *)
Definition swap (free : list string) (i j : Z) : option (list string) :=
  a ← at_index free i ;
  b ← at_index free j ;
  Some (<[Z.to_nat j := a]> (<[Z.to_nat i := b]> free)).

(** [for ...; i < j; i, j = i+1, j-1 { swap }], with a bound on the number
    of rounds; [None] is a panic or a bound that was too small. *)
Fixpoint reverse_loop (rounds : nat) (i j : Z) (free : list string)
    : option (list string) :=
  if decide (i < j)%Z then
    match rounds with
    | 0 => None
    | S rounds' =>
        free' ← swap free i j ;
        reverse_loop rounds' (i + 1) (j - 1) free'
    end
  else Some free.

(** [reverse(free)]: the contents of the slice when the call returns. *)
Definition reverse (free : list string) : option (list string) :=
  reverse_loop (length free) 0 (Z.of_nat (length free) - 1) free.

End InPlace.

(** ** What the compiled form means to the machine *)

(** The annotations the compiler is to carry over, in the order of the
    nodes: those of the nodes it translates, and for a [Const] those of
    the expression it wraps. *)
Fixpoint NodeMetas {M} (n : Node M) : list M :=
  match n with
  | Const v _ => FreeMetas v
  | Var _ m | Global _ m => [m]
  | Abst _ body m => m :: NodeMetas body
  | Appl l r m => m :: NodeMetas l ++ NodeMetas r
  end.

(** The term contains a [Const] node. *)
Fixpoint has_const {M} (n : Node M) : bool :=
  match n with
  | Const _ _ => true
  | Var _ _ | Global _ _ => false
  | Abst _ body _ => has_const body
  | Appl l r _ => has_const l || has_const r
  end.

(** Modelled from the spec: how the machine treats the environment vector
    when it instantiates an intermediate expression is outside package
    [ast].  A variable reference reads position 0, an abstraction with
    [Used] set puts its argument in front of the vector and one without
    leaves the vector alone, and an application discards [Ldrop] leading
    entries for its left side and [Rdrop] for its right side.
    [env_ok e depth] says that on a vector of [depth] entries no read and
    no discard of [e] goes past the end. *)
Fixpoint env_ok {M} (e : FreeExpr M) (depth : nat) : bool :=
  match e with
  | FreeVar _ => bool_decide (0 < depth)
  | FreeAbst used body _ => env_ok body (if used then S depth else depth)
  | FreeAppl ld rd l r _ =>
      bool_decide (ld ≤ depth) && bool_decide (rd ≤ depth) &&
      env_ok l (depth - ld) && env_ok r (depth - rd)
  | FreeRef _ _ => true
  end.

(** A term with every variable replaced by the abstraction it belongs to.
    An abstraction is known by the number of abstractions around it. *)
Inductive Resolved (M : Type) : Type :=
  | RVar (binder : option nat) (Meta : M)
  | RAbst (Body : Resolved M) (Meta : M)
  | RAppl (Left Right : Resolved M) (Meta : M)
  | RRef (cell : option Ptr) (Meta : M)
  | RConst (Value : FreeExpr M).

Arguments RVar {M} binder Meta.
Arguments RAbst {M} Body Meta.
Arguments RAppl {M} Left Right Meta.
Arguments RRef {M} cell Meta.
Arguments RConst {M} Value.

(** The innermost binding of [name] in a scope that lists the bindings
    innermost first. *)
Fixpoint bound_to (name : string) (scope : list (string * nat)) : option nat :=
  match scope with
  | [] => None
  | (x, d) :: rest => if decide (x = name) then Some d else bound_to name rest
  end.

(** Resolution by name, as the lambda calculus has it: a variable belongs
    to the innermost abstraction around it that binds its name. *)
Fixpoint resolve_named {M} (globals : gmap string Ptr) (n : Node M)
    (scope : list (string * nat)) (depth : nat) : Resolved M :=
  match n with
  | Const v _ => RConst v
  | Var x m => RVar (bound_to x scope) m
  | Abst x body m =>
      RAbst (resolve_named globals body ((x, depth) :: scope) (S depth)) m
  | Appl l r m =>
      RAppl (resolve_named globals l scope depth)
            (resolve_named globals r scope depth) m
  | Global g m => RRef (globals !! g) m
  end.

(** Modelled from the spec: resolution by position, following the
    treatment of the environment vector described at [env_ok]; [env]
    holds, for every entry of the vector, the abstraction whose argument
    the entry is. *)
Fixpoint resolve_pos {M} (e : FreeExpr M) (env : list nat) (depth : nat)
    : Resolved M :=
  match e with
  | FreeVar m => RVar (head env) m
  | FreeAbst used body m =>
      RAbst (resolve_pos body (if used then depth :: env else env) (S depth)) m
  | FreeAppl ld rd l r m =>
      RAppl (resolve_pos l (drop ld env) depth)
            (resolve_pos r (drop rd env) depth) m
  | FreeRef p m => RRef (Some p) m
  end.

(** An intermediate expression with the cell of every reference
    forgotten. *)
Fixpoint erase_refs {M} (e : FreeExpr M) : FreeExpr M :=
  match e with
  | FreeVar m => FreeVar m
  | FreeAbst used body m => FreeAbst used (erase_refs body) m
  | FreeAppl ld rd l r m => FreeAppl ld rd (erase_refs l) (erase_refs r) m
  | FreeRef _ m => FreeRef 0 m
  end.

(** Two outcomes that differ at most in the cells of references: the
    same error, or two expressions equal once the cells are forgotten. *)
Definition same_but_refs {M} (o o' : outcome M (FreeExpr M)) : Prop :=
  match o, o' with
  | Ok e, Ok e' => erase_refs e = erase_refs e'
  | Err a, Err b => a = b
  | _, _ => False
  end.

(** ** Terms and batches to run the compiler on *)

(** The constant-returning term [λx. λy. x]. *)
Definition constK : Node nat := Abst "x" (Abst "y" (Var "x" 1) 2) 3.

(** Two globals that refer to each other. *)
Definition termA : Node nat := Abst "f" (Appl (Global "B" 1) (Var "f" 2) 3) 4.
Definition termB : Node nat := Appl (Global "A" 5) (Global "B" 6) 7.

(** A batch with one term whose variable is not bound. *)
Definition badBatch : gmap string (Node nat) :=
  <["A" := Global "B" 1]> (<["B" := Var "x" 2]> ∅).

(** A stand-in for the machine: executables are the intermediate
    expressions themselves. *)
Definition keep : FreeExpr nat → list (FreeExpr nat) → FreeExpr nat := λ e _, e.

(** The slot table of [badBatch] when the names come in the order
    [A], [B]. *)
Definition badTable : gmap string Ptr := <["B":=1]> (<["A":=0]> ∅).

(** [λx. (λx. x) x]: the inner binder shadows the outer one. *)
Definition shadow : Node nat :=
  Abst "x" (Appl (Abst "x" (Var "x" 1) 2) (Var "x" 3) 4) 5.

(** [λx. y]: the variable is not bound. *)
Definition openTerm : Node nat := Abst "x" (Var "y" 1) 2.

(** A batch in which both terms fail. *)
Definition twoBad : gmap string (Node nat) :=
  <["A" := Var "x" 1]> (<["B" := Var "y" 2]> ∅).

(** What [shadow] compiles to. *)
Definition shadowOut : FreeExpr nat :=
  FreeAbst true (FreeAppl 1 0 (FreeAbst true (FreeVar 1) 2) (FreeVar 3) 4) 5.

(** The two globals that refer to each other, as a batch, and what
    [CompileAll] returns for it when the names come in the order
    [B], [A]. *)
Definition pairBatch : gmap string (Node nat) :=
  <["A" := termA]> (<["B" := termB]> ∅).

Definition pairMap : gmap string (FreeExpr nat) :=
  <["A" := FreeAbst true (FreeAppl 1 0 (FreeRef 0 1) (FreeVar 2) 3) 4]>
    (<["B" := FreeAppl 0 0 (FreeRef 1 5) (FreeRef 0 6) 7]> ∅).

(** The slot table with the two cells exchanged. *)
Definition swappedTable : gmap string Ptr := <["B":=0]> (<["A":=1]> ∅).

(** ** The trimming loop *)

Section trim_facts.
Context {M : Type}.
Implicit Types (n side : Node M) (free : list string).

Lemma trim_le side free : trim side free ≤ length free.
Proof.
  induction free as [|name rest IH]; simpl; [lia|].
  destruct (HasFree side name); lia.
Qed.

Lemma trim_leading side free : leading_unreferenced side free (trim side free).
Proof.
  induction free as [|name rest [IHpre IHstop]]; simpl.
  - split; [intros j name Hj; lia | by left].
  - destruct (HasFree side name) eqn:Hhd.
    + split; [intros j x Hj; lia | right; by exists name].
    + split.
      * intros [|j] x Hj Hx; simpl in Hx; [by simplify_eq|].
        apply (IHpre j); [lia | done].
      * destruct IHstop as [->|Hstop]; [by left | by right].
Qed.

Lemma leading_unique side free k1 k2 :
  leading_unreferenced side free k1 →
  leading_unreferenced side free k2 → k1 = k2.
Proof.
  assert (Hone : ∀ a b,
    leading_unreferenced side free a →
    leading_unreferenced side free b → b < a → False).
  { intros a b [Hpre Hstop] [_ [->|(x & Hx & Href)]] Hlt.
    - destruct Hstop as [->|(x & Hx & _)]; [lia|].
      apply lookup_lt_Some in Hx. lia.
    - rewrite (Hpre b x Hlt Hx) in Href. done. }
  intros H1 H2.
  destruct (Nat.lt_trichotomy k1 k2) as [Hlt|[Heq|Hgt]]; [|done|].
  - destruct (Hone k2 k1 H2 H1 Hlt).
  - destruct (Hone k1 k2 H1 H2 Hgt).
Qed.

Lemma trim_all side free :
  trim side free = length free ↔ ∀ name, name ∈ free → HasFree side name = false.
Proof.
  induction free as [|name rest IH]; simpl.
  - split; [intros _ x Hx; by apply elem_of_nil in Hx | done].
  - destruct (HasFree side name) eqn:Hhd.
    + split; [done|]. intros Hall.
      rewrite Hall in Hhd; [done | by left].
    + split.
      * intros Heq x [->|Hx]%elem_of_cons; [done|].
        apply IH; [lia | done].
      * intros Hall. f_equal. apply IH. intros x Hx. apply Hall. by right.
Qed.

Lemma slice_from_trim side free :
  slice_from (M:=M) (trim side free) free = Ok (drop (trim side free) free).
Proof.
  unfold slice_from. pose proof (trim_le side free).
  destruct (decide _); [done | lia].
Qed.

(** A referenced name survives the trim. *)
Lemma trim_keeps side free name :
  HasFree side name = true → name ∈ free → name ∈ drop (trim side free) free.
Proof.
  intros Href. induction free as [|x rest IH]; simpl; [done|].
  destruct (HasFree side x) eqn:Hhd; [done|].
  intros [->|Hin]%elem_of_cons; [congruence | by apply IH].
Qed.

(** What is left after the trim starts with a referenced name. *)
Lemma trim_head side free name rest :
  drop (trim side free) free = name :: rest → HasFree side name = true.
Proof.
  induction free as [|x tl IH]; simpl; [done|].
  destruct (HasFree side x) eqn:Hhd; simpl; [|done].
  intros ?; by simplify_eq.
Qed.

Lemma CompileFree_Appl l r m globals free :
  CompileFree (Appl l r m) globals free =@{outcome M (FreeExpr M)}
    left ← CompileFree l globals (drop (trim l free) free) ;
    right ← CompileFree r globals (drop (trim r free) free) ;
    Ok (FreeAppl (trim l free) (trim r free) left right m).
Proof.
  cbn [CompileFree]. rewrite !slice_from_trim. reflexivity.
Qed.

Lemma bind_no_panic {A B} (o : outcome M A) (k : A → outcome M B) :
  o ≠ Panic → (∀ a, k a ≠ Panic) → o ≫= k ≠ Panic.
Proof. destruct o; simpl; [by auto | done | done]. Qed.

Lemma CompileFree_no_panic n globals free : CompileFree n globals free ≠ Panic.
Proof.
  revert free. induction n as [v m|x m|x body IH m|l IHl r IHr m|g m]; intros free.
  - done.
  - simpl. destruct free as [|name rest]; [done|]. by destruct (decide _).
  - cbn [CompileFree]. destruct (negb _); by apply bind_no_panic.
  - rewrite CompileFree_Appl.
    apply bind_no_panic; [done|]. intros left.
    by apply bind_no_panic.
  - simpl. by destruct (globals !! g).
Qed.

End trim_facts.

(** ** [HasFree] finds the free occurrences *)

Section has_free_facts.
Context {M : Type}.
Implicit Types (n : Node M) (name : string).

Lemma HasFree_occurrence n name : HasFree n name = true → free_occurrence n name.
Proof.
  induction n as [v m|x m|x body IH m|l IHl r IHr m|g m]; simpl; try done.
  - intros ->%bool_decide_eq_true. exists [], m. split; [done | apply not_elem_of_nil].
  - intros [Hne%bool_decide_eq_true Hbody]%andb_true_iff.
    destruct (IH Hbody) as (path & m' & Hat & Hfree).
    exists (InBody :: path), m'. split; [done|].
    simpl. intros [?|?]%elem_of_cons; done.
  - intros [Hl|Hr]%orb_true_iff.
    + destruct (IHl Hl) as (path & m' & Hat & Hfree). by exists (InLeft :: path), m'.
    + destruct (IHr Hr) as (path & m' & Hat & Hfree). by exists (InRight :: path), m'.
Qed.

Lemma occurrence_HasFree n name : free_occurrence n name → HasFree n name = true.
Proof.
  intros (path & m' & Hat & Hfree). revert path Hat Hfree.
  induction n as [v m|x m|x body IH m|l IHl r IHr m|g m];
    intros [|[] path] Hat Hfree; simpl in *; try done.
  - simplify_eq. by apply bool_decide_eq_true.
  - apply andb_true_iff. split.
    + apply bool_decide_eq_true. intros ->. apply Hfree. by left.
    + apply (IH path); [done|]. intros Hin. apply Hfree. by right.
  - rewrite (IHl path); done.
  - rewrite (IHr path); [apply orb_true_r | done ..].
Qed.

(** In a term all of whose variables are bound within [scope] or below,
    only names of [scope] can be free. *)
Lemma scoped_HasFree n scope name :
  scoped scope n = true → HasFree n name = true → name ∈ scope.
Proof.
  revert scope.
  induction n as [v m|x m|x body IH m|l IHl r IHr m|g m]; intros scope; simpl; try done.
  - intros Hin%bool_decide_eq_true ->%bool_decide_eq_true. done.
  - intros Hsc [Hne%bool_decide_eq_true Hbody]%andb_true_iff.
    pose proof (IH _ Hsc Hbody) as [?|?]%elem_of_cons; done.
  - intros [Hl Hr]%andb_true_iff [?|?]%orb_true_iff; eauto.
Qed.

End has_free_facts.

(** ** When [CompileFree] succeeds, and what its errors carry *)

Section compile_facts.
Context {M : Type}.
Implicit Types (n : Node M) (globals : gmap string Ptr) (free : list string).

(** The invariant of the traversal: every name the term references is in
    the environment, and the environment is empty or starts with a name
    the term references. *)
Lemma CompileFree_succeeds n globals free :
  (∀ g, g ∈ global_names n → is_Some (globals !! g)) →
  (∀ name, HasFree n name = true → name ∈ free) →
  (∀ name rest, free = name :: rest → HasFree n name = true) →
  ∃ e, CompileFree n globals free = Ok e.
Proof.
  revert free.
  induction n as [v m|x m|x body IH m|l IHl r IHr m|g m];
    intros free Hglob Hin Hhd.
  - by eexists.
  - destruct free as [|name rest].
    + specialize (Hin x). simpl in Hin. rewrite bool_decide_eq_true_2 in Hin by done.
      by apply elem_of_nil in Hin.
    + specialize (Hhd name rest eq_refl). simpl in Hhd.
      apply bool_decide_eq_true in Hhd as ->. simpl.
      rewrite decide_False by (intros ?; done). by eexists.
  - cbn [CompileFree]. destruct (HasFree body x) eqn:Hused; cbn [negb].
    + destruct (IH ([x] ++ free)) as [b Hb].
      * done.
      * intros name Href. destruct (decide (name = x)) as [->|Hne]; [by left|].
        right. apply Hin. simpl. by rewrite bool_decide_eq_true_2, Href.
      * simpl. intros name rest [= <- _]. done.
      * rewrite Hb. eexists; reflexivity.
    + destruct (IH free) as [b Hb].
      * done.
      * intros name Href. apply Hin. simpl. rewrite Href.
        rewrite bool_decide_eq_true_2; [done | intros ->; congruence].
      * intros name rest Hfree. specialize (Hhd name rest Hfree). simpl in Hhd.
        by apply andb_true_iff in Hhd as [_ ?].
      * rewrite Hb. eexists; reflexivity.
  - rewrite CompileFree_Appl.
    destruct (IHl (drop (trim l free) free)) as [el Hl].
    + intros g Hg. apply Hglob. simpl. apply elem_of_app. by left.
    + intros name Href. apply trim_keeps; [done|].
      apply Hin. simpl. by rewrite Href.
    + intros name rest. apply trim_head.
    + destruct (IHr (drop (trim r free) free)) as [er Hr].
      * intros g Hg. apply Hglob. simpl. apply elem_of_app. by right.
      * intros name Href. apply trim_keeps; [done|].
        apply Hin. simpl. rewrite Href. apply orb_true_r.
      * intros name rest. apply trim_head.
      * rewrite Hl, Hr. eexists; reflexivity.
  - destruct (Hglob g) as [p Hp]; [simpl; by left|].
    simpl. rewrite Hp. by eexists.
Qed.

(** An error carries a [Var] or [Global] node of the term and names it. *)
Lemma CompileFree_Err_node n globals free e :
  CompileFree n globals free = Err e →
  subterm (ErrNode e) n ∧
  ((∃ x m, undefined_at e (Var x m) x) ∨
   (∃ g m, undefined_at e (Global g m) g ∧ globals !! g = None)).
Proof.
  revert free.
  induction n as [v m|x m|x body IH m|l IHl r IHr m|g m]; intros free.
  - done.
  - assert (e = mkCompileError (Var x m) (not_defined x) →
      subterm (ErrNode e) (Var x m) ∧
      ((∃ x' m', undefined_at e (Var x' m') x') ∨
       (∃ g m', undefined_at e (Global g m') g ∧ globals !! g = None))) as Hgoal.
    { intros ->. split; [by exists [] | left; by exists x, m]. }
    simpl. destruct free as [|name rest]; [|destruct (decide _)];
      intros ?; simplify_eq; by apply Hgoal.
  - assert (∀ fr b', CompileFree body globals fr ≫= (λ b, Ok (FreeAbst b' b m)) = Err e →
      CompileFree body globals fr = Err e) as Hbind.
    { intros fr b'. by destruct (CompileFree body globals fr). }
    cbn [CompileFree]. destruct (negb _); intros Hb%Hbind;
      destruct (IH _ Hb) as [[path Hat] Hkind]; (split; [by exists (InBody :: path) | done]).
  - rewrite CompileFree_Appl.
    destruct (CompileFree l globals _) as [el|e'|] eqn:Hl; simpl; [|  |done].
    + destruct (CompileFree r globals _) as [er|e'|] eqn:Hr; simpl; [done| |done].
      intros ?; simplify_eq.
      destruct (IHr _ Hr) as [[path Hat] Hkind]. split; [by exists (InRight :: path) | done].
    + intros ?; simplify_eq.
      destruct (IHl _ Hl) as [[path Hat] Hkind]. split; [by exists (InLeft :: path) | done].
  - simpl. destruct (globals !! g) eqn:Hg; [done|]. intros ?; simplify_eq.
    split; [by exists [] | right; by exists g, m].
Qed.

End compile_facts.

(** ** Annotations are carried, never read *)

Section relabelling.
Context {M N : Type} (f : M → N).

Lemma HasFree_map (n : Node M) name : HasFree (Node_map f n) name = HasFree n name.
Proof.
  induction n as [v m|x m|x body IH m|l IHl r IHr m|g m]; simpl; congruence.
Qed.

Lemma trim_map (side : Node M) free : trim (Node_map f side) free = trim side free.
Proof.
  induction free as [|name rest IH]; simpl; [done|].
  by rewrite HasFree_map, IH.
Qed.

Lemma outcome_map_bind {A B} (g : A → B) (o : outcome M A)
    (k : A → outcome M (FreeExpr M)) (k' : B → outcome N (FreeExpr N)) :
  (∀ a, k' (g a) = outcome_map f (FreeExpr_map f) (k a)) →
  outcome_map f g o ≫= k' = outcome_map f (FreeExpr_map f) (o ≫= k).
Proof. intros Hk. destruct o; simpl; [apply Hk | done | done]. Qed.

Lemma CompileFree_map (n : Node M) globals free :
  CompileFree (Node_map f n) globals free
  = outcome_map f (FreeExpr_map f) (CompileFree n globals free).
Proof.
  revert free.
  induction n as [v m|x m|x body IH m|l IHl r IHr m|g m]; intros free.
  - done.
  - simpl. destruct free as [|name rest]; [done|]. by destruct (decide _).
  - cbn [Node_map CompileFree]. rewrite HasFree_map.
    destruct (negb _); rewrite IH; by apply outcome_map_bind.
  - cbn [Node_map]. rewrite !CompileFree_Appl, !trim_map, IHl.
    apply outcome_map_bind. intros left. rewrite IHr.
    by apply outcome_map_bind.
  - simpl. by destruct (globals !! g).
Qed.

End relabelling.

(** ** The compiler, node by node *)

Section node_claims.
Context {M : Type}.
Implicit Types (n body l r : Node M) (m : M) (x g name : string).
Implicit Types (globals : gmap string Ptr) (free : list string).

(** C2.  Compiling [Var x] succeeds exactly when the environment is not
    empty and starts with [x]; it then yields the variable reference,
    which stands for position 0 of the environment.  In every other
    case it fails with the error whose message is ['x' not defined] and
    whose node is the [Var] node itself.  The table of globals plays no
    part. *)
Theorem Var_CompileFree x m globals free :
  ((∃ e, CompileFree (Var x m) globals free = Ok e) ↔ head free = Some x) ∧
  (head free = Some x →
     free !! 0 = Some x ∧ CompileFree (Var x m) globals free = Ok (FreeVar m)) ∧
  (head free ≠ Some x →
     ∃ e, CompileFree (Var x m) globals free = Err e ∧
          undefined_at e (Var x m) x ∧
          Msg e = "'" +:+ x +:+ "' not defined").
Proof.
  destruct free as [|name rest]; simpl.
  - split; [split; [intros [e ?]; done | done]|].
    split; [done|]. intros _. by eexists.
  - destruct (decide (name ≠ x)) as [Hne|Heq%dec_stable].
    + split; [split; [intros [e ?]; done | intros [= ?]; done]|].
      split; [intros [= ?]; done|]. intros _. by eexists.
    + subst name. split; [split; [done | by eexists]|].
      split; [done|]. intros Hne. done.
Qed.

(** C3.  Compiling [Abst x body]: when [body] does not reference [x],
    the body is compiled in the very environment the abstraction was
    given and the result is tagged [Used = false]; otherwise the body is
    compiled in that environment with [x] put in front and the result
    is tagged [Used = true].  In both cases the abstraction produced
    wraps what the body compiled to, there is one whenever the body
    compiles, and an error of the body is handed on as it is.  So the
    identity compiles to a used binder around a variable reference, a
    binder around another variable is unused and leaves that variable
    the head of the environment, and in [λx. λy. x] the inner binder is
    unused and the outer one used. *)
Theorem Abst_CompileFree x body m globals free :
  (HasFree body x = false →
     CompileFree (Abst x body m) globals free
       = (b ← CompileFree body globals free ; Ok (FreeAbst false b m)) ∧
     (∀ b, CompileFree body globals free = Ok b →
           CompileFree (Abst x body m) globals free = Ok (FreeAbst false b m)) ∧
     (∀ e, CompileFree (Abst x body m) globals free = Ok e →
           ∃ b, CompileFree body globals free = Ok b ∧ e = FreeAbst false b m) ∧
     (∀ err, CompileFree body globals free = Err err →
             CompileFree (Abst x body m) globals free = Err err)) ∧
  (HasFree body x = true →
     CompileFree (Abst x body m) globals free
       = (b ← CompileFree body globals (x :: free) ; Ok (FreeAbst true b m)) ∧
     (∀ b, CompileFree body globals (x :: free) = Ok b →
           CompileFree (Abst x body m) globals free = Ok (FreeAbst true b m)) ∧
     (∀ e, CompileFree (Abst x body m) globals free = Ok e →
           ∃ b, CompileFree body globals (x :: free) = Ok b ∧
                e = FreeAbst true b m) ∧
     (∀ err, CompileFree body globals (x :: free) = Err err →
             CompileFree (Abst x body m) globals free = Err err)) ∧
  (∀ m', CompileFree (Abst x (Var x m') m) globals free
         = Ok (FreeAbst true (FreeVar m') m)) ∧
  (∀ y m' rest, y ≠ x →
     CompileFree (Abst x (Var y m') m) globals (y :: rest)
     = Ok (FreeAbst false (FreeVar m') m)) ∧
  (∀ y m1 m2, x ≠ y →
     CompileFree (Abst x (Abst y (Var x m1) m2) m) globals free
     = Ok (FreeAbst true (FreeAbst false (FreeVar m1) m2) m)).
Proof.
  split; [|split; [|split; [|split]]].
  - intros Hused. cbn [CompileFree]. rewrite Hused. cbn [negb].
    split; [reflexivity|]. split; [by intros b ->|]. split; [|by intros err ->].
    intros e. destruct (CompileFree body globals free) as [b| |]; simpl; [|done..].
    intros [= <-]. by exists b.
  - intros Hused. cbn [CompileFree]. rewrite Hused. cbn [negb app].
    split; [reflexivity|]. split; [by intros b ->|]. split; [|by intros err ->].
    intros e. destruct (CompileFree body globals (x :: free)) as [b| |]; simpl; [|done..].
    intros [= <-]. by exists b.
  - intros m'. simpl. rewrite bool_decide_eq_true_2 by done. simpl.
    by rewrite decide_False by (intros ?; done).
  - intros y m' rest Hne. simpl. rewrite bool_decide_eq_false_2 by (intros ->; done).
    simpl. by rewrite decide_False by (intros ?; done).
  - intros y m1 m2 Hne. simpl.
    rewrite (bool_decide_eq_true_2 (x ≠ y)) by done.
    rewrite (bool_decide_eq_true_2 (x = x)) by done. simpl.
    rewrite (bool_decide_eq_false_2 (y = x)) by (intros ->; done). simpl.
    by rewrite decide_False by (intros ?; done).
Qed.

(** C4.  Compiling [Appl l r]: the recorded [Ldrop] is the number of
    leading names of the environment that [l] does not reference, up to
    the first referenced one, and the whole length when [l] references
    none; [Rdrop] is the same count for [r]; [l] is compiled in
    [free[Ldrop:]] and [r] in [free[Rdrop:]], and the application
    produced records the two counts around what the two sides compiled
    to.  With the environment [x, y, z], a left side that references [y]
    but not [x], and a right side that references [z] but neither [x]
    nor [y], the counts are 1 and 2; the application of the variable [y]
    to the variable [z] compiles there to exactly that. *)
Theorem Appl_CompileFree l r m globals free :
  leading_unreferenced l free (trim l free) ∧
  leading_unreferenced r free (trim r free) ∧
  (∀ k, leading_unreferenced l free k → k = trim l free) ∧
  (∀ k, leading_unreferenced r free k → k = trim r free) ∧
  ((∀ name, name ∈ free → HasFree l name = false) → trim l free = length free) ∧
  ((∀ name, name ∈ free → HasFree r name = false) → trim r free = length free) ∧
  CompileFree (Appl l r m) globals free
    =@{outcome M (FreeExpr M)}
    (left ← CompileFree l globals (drop (trim l free) free) ;
     right ← CompileFree r globals (drop (trim r free) free) ;
     Ok (FreeAppl (trim l free) (trim r free) left right m)) ∧
  (∀ x y z,
     HasFree l x = false → HasFree l y = true →
     HasFree r x = false → HasFree r y = false → HasFree r z = true →
     trim l [x; y; z] = 1 ∧ trim r [x; y; z] = 2 ∧
     CompileFree (Appl l r m) globals [x; y; z]
       =@{outcome M (FreeExpr M)}
       (left ← CompileFree l globals [y; z] ;
        right ← CompileFree r globals [z] ;
        Ok (FreeAppl 1 2 left right m)) ∧
     (∀ left right,
        CompileFree l globals [y; z] = Ok left →
        CompileFree r globals [z] = Ok right →
        CompileFree (Appl l r m) globals [x; y; z]
        = Ok (FreeAppl 1 2 left right m))) ∧
  (∀ ld rd left right,
     leading_unreferenced l free ld → leading_unreferenced r free rd →
     CompileFree l globals (drop ld free) = Ok left →
     CompileFree r globals (drop rd free) = Ok right →
     CompileFree (Appl l r m) globals free = Ok (FreeAppl ld rd left right m)) ∧
  (∀ e, CompileFree (Appl l r m) globals free = Ok e →
     ∃ ld rd left right,
       e = FreeAppl ld rd left right m ∧
       leading_unreferenced l free ld ∧ leading_unreferenced r free rd ∧
       CompileFree l globals (drop ld free) = Ok left ∧
       CompileFree r globals (drop rd free) = Ok right) ∧
  (∀ x y z my mz,
     x ≠ y → x ≠ z → y ≠ z →
     CompileFree (Appl (Var y my) (Var z mz) m) globals [x; y; z]
     = Ok (FreeAppl 1 2 (FreeVar my) (FreeVar mz) m)).
Proof.
  split; [apply trim_leading|]. split; [apply trim_leading|].
  split; [intros k Hk; exact (leading_unique _ _ _ _ Hk (trim_leading _ _))|].
  split; [intros k Hk; exact (leading_unique _ _ _ _ Hk (trim_leading _ _))|].
  split; [apply trim_all|]. split; [apply trim_all|].
  split; [apply CompileFree_Appl|].
  split; [|split; [|split]].
  - intros x y z Hlx Hly Hrx Hry Hrz.
    assert (trim l [x; y; z] = 1) as Hl by (simpl; by rewrite Hlx, Hly).
    assert (trim r [x; y; z] = 2) as Hr by (simpl; by rewrite Hrx, Hry, Hrz).
    rewrite CompileFree_Appl, Hl, Hr. split; [done|]. split; [done|].
    split; [done|]. simpl. by intros left right -> ->.
  - intros ld rd left right Hld Hrd Hleft Hright.
    rewrite (leading_unique _ _ _ _ Hld (trim_leading l free)) in *.
    rewrite (leading_unique _ _ _ _ Hrd (trim_leading r free)) in *.
    rewrite CompileFree_Appl, Hleft, Hright. done.
  - intros e. rewrite CompileFree_Appl.
    destruct (CompileFree l globals _) as [left| |] eqn:Hleft; simpl; [|done..].
    destruct (CompileFree r globals _) as [right| |] eqn:Hright; simpl; [|done..].
    intros [= <-]. exists (trim l free), (trim r free), left, right.
    split; [done|]. split; [apply trim_leading|]. split; [apply trim_leading|]. done.
  - intros x y z my mz Hxy Hxz Hyz. rewrite CompileFree_Appl. simpl.
    rewrite (bool_decide_eq_false_2 (x = y)) by done.
    rewrite (bool_decide_eq_true_2 (y = y)) by done.
    rewrite (bool_decide_eq_false_2 (x = z)) by done.
    rewrite (bool_decide_eq_false_2 (y = z)) by done.
    rewrite (bool_decide_eq_true_2 (z = z)) by done. simpl.
    rewrite !decide_False by (intros ?; done). done.
Qed.

(** C8.  [HasFree n name] holds exactly when [n] contains an occurrence
    of [name] that no abstraction within [n] binds again.  It is false
    on [Const] and on [Global]; on [Var x] it says whether [name] is
    [x]; on [Abst x body] it is false when [name] is [x] and is the
    answer of [body] otherwise; on [Appl l r] it holds when it holds of
    [l] or of [r]. *)
Theorem HasFree_free_occurrence n name :
  (HasFree n name = true ↔ free_occurrence n name) ∧
  (∀ v m, HasFree (Const v m) name = false) ∧
  (∀ g m, HasFree (Global (M:=M) g m) name = false) ∧
  (∀ x m, HasFree (Var (M:=M) x m) name = true ↔ name = x) ∧
  (∀ x body m, HasFree (Abst x body m) name
               = if decide (name = x) then false else HasFree body name) ∧
  (∀ l r m, HasFree (Appl l r m) name = true
            ↔ HasFree l name = true ∨ HasFree r name = true).
Proof.
  split; [split; [apply HasFree_occurrence | apply occurrence_HasFree]|].
  split; [done|]. split; [done|].
  split; [intros x m; simpl; apply bool_decide_eq_true|].
  split.
  - intros x body m. simpl. destruct (decide (name = x)) as [->|Hne].
    + by rewrite bool_decide_eq_false_2 by (intros ?; done).
    + by rewrite bool_decide_eq_true_2.
  - intros l r m. simpl. apply orb_true_iff.
Qed.

(** C9.  Compiling [Global g] succeeds exactly when [g] is a key of the
    table of globals, and the reference it yields holds the slot cell
    that the table gives for [g], with nothing read from the cell.  When
    [g] is absent it fails with the error whose message is
    ['g' not defined] and whose node is the [Global] node itself.  The
    environment has no influence on the result. *)
Theorem Global_CompileFree g m globals free :
  ((∃ e, CompileFree (Global g m) globals free = Ok e) ↔ is_Some (globals !! g)) ∧
  (∀ cell, globals !! g = Some cell →
     CompileFree (Global g m) globals free = Ok (FreeRef cell m)) ∧
  (globals !! g = None →
     ∃ e, CompileFree (Global g m) globals free = Err e ∧
          undefined_at e (Global g m) g ∧
          Msg e = "'" +:+ g +:+ "' not defined") ∧
  (∀ free', CompileFree (Global g m) globals free'
            = CompileFree (Global g m) globals free).
Proof.
  simpl. destruct (globals !! g) as [cell|] eqn:Hg.
  - split; [split; [by eexists | by eexists]|].
    split; [by intros ? [= <-]|]. done.
  - split; [split; [intros [e ?]; done | intros [? ?]; done]|].
    split; [done|]. split; [|done]. intros _. by eexists.
Qed.

(** C10.  In [Appl.CompileFree] both counts are at most the length of
    the environment, so neither slice expression can fail its bounds
    check, and compiling any term never panics.  A count reaches the
    length exactly when the side references no name of the
    environment. *)
Theorem Appl_drops_in_bounds l r m globals free :
  trim l free ≤ length free ∧
  trim r free ≤ length free ∧
  slice_from (M:=M) (trim l free) free = Ok (drop (trim l free) free) ∧
  slice_from (M:=M) (trim r free) free = Ok (drop (trim r free) free) ∧
  CompileFree (Appl l r m) globals free ≠ Panic ∧
  (trim l free = length free ↔ ∀ name, name ∈ free → HasFree l name = false) ∧
  (trim r free = length free ↔ ∀ name, name ∈ free → HasFree r name = false).
Proof.
  split; [apply trim_le|]. split; [apply trim_le|].
  split; [apply slice_from_trim|]. split; [apply slice_from_trim|].
  split; [apply CompileFree_no_panic|].
  split; apply trim_all.
Qed.

End node_claims.

(** ** The slot table decides success only through its keys *)

Section table_keys.
Context {M : Type}.
Implicit Types (n : Node M) (ptrs : gmap string Ptr).

Lemma same_kind_bind {A B} (o o' : outcome M A) (k k' : A → outcome M B) :
  same_kind o o' → (∀ a a', same_kind (k a) (k' a')) →
  same_kind (o ≫= k) (o' ≫= k').
Proof. destruct o, o'; simpl; intros Ho Hk; done || apply Hk. Qed.

Lemma CompileFree_same_keys n ptrs ptrs' free :
  (∀ g, is_Some (ptrs !! g) ↔ is_Some (ptrs' !! g)) →
  same_kind (CompileFree n ptrs free) (CompileFree n ptrs' free).
Proof.
  intros Hkeys. revert free.
  induction n as [v m|x m|x body IH m|l IHl r IHr m|g m]; intros free.
  - done.
  - simpl. destruct free as [|name rest]; [done|]. by destruct (decide _).
  - cbn [CompileFree]. destruct (negb _); by apply same_kind_bind.
  - rewrite !CompileFree_Appl.
    apply same_kind_bind; [done|]. intros left left'.
    by apply same_kind_bind.
  - simpl. specialize (Hkeys g).
    destruct (ptrs !! g) as [p|], (ptrs' !! g) as [p'|]; simpl; try done.
    + destruct Hkeys as [Hk _].
      assert (is_Some (@None Ptr)) as [? ?] by (apply Hk; by eexists). done.
    + destruct Hkeys as [_ Hk].
      assert (is_Some (@None Ptr)) as [? ?] by (apply Hk; by eexists). done.
Qed.

Lemma CompileFree_Err_same_keys n ptrs ptrs' free e :
  (∀ g, is_Some (ptrs !! g) ↔ is_Some (ptrs' !! g)) →
  CompileFree n ptrs free = Err e → CompileFree n ptrs' free = Err e.
Proof.
  intros Hkeys He. pose proof (CompileFree_same_keys n ptrs ptrs' free Hkeys) as Hk.
  rewrite He in Hk. destruct (CompileFree n ptrs' free); simpl in Hk; by subst.
Qed.

End table_keys.

(** ** The loops of [CompileAll] *)

Section batch.
Context {M Expr : Type}.
Variable nilExpr : Expr.
Variable Fill : FreeExpr M → list Expr → Expr.
Implicit Types (globals : gmap string (Node M)) (ptrs : gmap string Ptr).
Implicit Types (names : list string) (compiled : list Expr).

Lemma fillPtrs_spec names i acc compiled :
  i + length names ≤ length compiled → NoDup names →
  ∃ ptrs, fillPtrs (M:=M) compiled i names acc = Ok ptrs ∧
    (∀ k name, names !! k = Some name → ptrs !! name = Some (i + k)) ∧
    (∀ name, name ∉ names → ptrs !! name = acc !! name).
Proof.
  revert i acc. induction names as [|name rest IH]; intros i acc Hlen Hnd.
  - exists acc. split; [done|]. split; [intros k x Hk; done | done].
  - simpl in *. apply NoDup_cons in Hnd as [Hfresh Hnd].
    rewrite decide_True by lia.
    destruct (IH (S i) (<[name:=i]> acc)) as (ptrs & Hok & Hin & Hout); [lia|done|].
    exists ptrs. split; [done|]. split.
    + intros [|k] x Hk; simpl in Hk.
      * simplify_eq. rewrite Hout by done. rewrite lookup_insert_eq. f_equal. lia.
      * rewrite (Hin k x Hk). f_equal. lia.
    + intros x [Hne Hx]%not_elem_of_cons. rewrite Hout by done.
      by rewrite lookup_insert_ne.
Qed.

Lemma compiles_true globals ptrs name :
  compiles globals ptrs name = true →
  ∃ node fe, globals !! name = Some node ∧ CompileFree node ptrs [] = Ok fe.
Proof.
  unfold compiles. destruct (globals !! name) as [node|]; [|done].
  destruct (CompileFree node ptrs []) as [fe| |] eqn:Hc; [|done..].
  intros _. by exists node, fe.
Qed.

Lemma compileLoop_ok globals ptrs names i compiled :
  i + length names ≤ length compiled →
  (∀ name, name ∈ names → compiles globals ptrs name = true) →
  ∃ compiled', compileLoop Fill globals ptrs i names compiled = Ok compiled' ∧
    length compiled' = length compiled ∧
    (∀ j, j < i → compiled' !! j = compiled !! j) ∧
    (∀ k name, names !! k = Some name →
       ∃ node fe, globals !! name = Some node ∧
                  CompileFree node ptrs [] = Ok fe ∧
                  compiled' !! (i + k) = Some (Fill fe [])).
Proof.
  revert i compiled. induction names as [|name rest IH]; intros i compiled Hlen Hall.
  - exists compiled. split; [done|]. split; [done|]. split; [done|].
    intros k x Hk; done.
  - simpl in *.
    destruct (compiles_true globals ptrs name) as (node & fe & Hnode & Hfe);
      [apply Hall; by left|].
    rewrite Hnode, Hfe. simpl. rewrite decide_True by lia.
    destruct (IH (S i) (<[i:=Fill fe []]> compiled))
      as (compiled' & Hok & Hlen' & Hlow & Hhigh).
    { rewrite length_insert. lia. }
    { intros x Hx. apply Hall. by right. }
    exists compiled'. split; [done|]. rewrite length_insert in Hlen'.
    split; [done|]. split.
    + intros j Hj. rewrite Hlow by lia. apply list_lookup_insert_ne. lia.
    + intros [|k] x Hk; simpl in Hk.
      * simplify_eq. exists node, fe. split; [done|]. split; [done|].
        rewrite Nat.add_0_r, Hlow by lia. apply list_lookup_insert_eq. lia.
      * destruct (Hhigh k x Hk) as (nd & fe' & ? & ? & Hcell).
        exists nd, fe'. split; [done|]. split; [done|].
        rewrite <- Hcell. f_equal. lia.
Qed.

Lemma compileLoop_err globals ptrs pre name post node e i compiled :
  i + length (pre ++ name :: post) ≤ length compiled →
  (∀ x, x ∈ pre → compiles globals ptrs x = true) →
  globals !! name = Some node → CompileFree node ptrs [] = Err e →
  compileLoop Fill globals ptrs i (pre ++ name :: post) compiled = Err e.
Proof.
  intros Hlen Hpre Hnode He. revert i compiled Hlen.
  induction pre as [|x pre IH]; intros i compiled Hlen; simpl in *.
  - by rewrite Hnode, He.
  - destruct (compiles_true globals ptrs x) as (nd & fe & Hnd & Hfe);
      [apply Hpre; by left|].
    rewrite Hnd, Hfe. simpl. rewrite decide_True by lia.
    apply IH.
    + intros y Hy. apply Hpre. by right.
    + rewrite length_insert. lia.
Qed.

Lemma fillMap_spec names i acc compiled :
  i + length names ≤ length compiled → NoDup names →
  ∃ cm, fillMap (M:=M) compiled i names acc = Ok cm ∧
    (∀ k name, names !! k = Some name → cm !! name = compiled !! (i + k)) ∧
    (∀ name, name ∉ names → cm !! name = acc !! name).
Proof.
  revert i acc. induction names as [|name rest IH]; intros i acc Hlen Hnd.
  - exists acc. split; [done|]. split; [intros k x Hk; done | done].
  - simpl in *. apply NoDup_cons in Hnd as [Hfresh Hnd].
    destruct (lookup_lt_is_Some_2 compiled i) as [e He]; [lia|].
    rewrite He.
    destruct (IH (S i) (<[name:=e]> acc)) as (cm & Hok & Hin & Hout); [lia|done|].
    exists cm. split; [done|]. split.
    + intros [|k] x Hk; simpl in Hk.
      * simplify_eq. rewrite Hout by done.
        by rewrite lookup_insert_eq, Nat.add_0_r.
      * rewrite (Hin k x Hk). f_equal. lia.
    + intros x [Hne Hx]%not_elem_of_cons. rewrite Hout by done.
      by rewrite lookup_insert_ne.
Qed.

(** The first name of a list on which a test fails. *)
Lemma first_failure (test : string → bool) names name :
  name ∈ names → test name = false →
  ∃ pre bad post, names = pre ++ bad :: post ∧
    (∀ x, x ∈ pre → test x = true) ∧ test bad = false.
Proof.
  induction names as [|x rest IH]; [by intros ?%elem_of_nil|].
  intros Hin Hfail. destruct (test x) eqn:Hx.
  - apply elem_of_cons in Hin as [->|Hin]; [congruence|].
    destruct (IH Hin Hfail) as (pre & bad & post & -> & Hpre & Hbad).
    exists (x :: pre), bad, post. split; [done|]. split; [|done].
    intros y [->|Hy]%elem_of_cons; [done | by apply Hpre].
  - exists [], x, rest. split; [done|]. split; [|done].
    by intros y ?%elem_of_nil.
Qed.

Lemma key_order_elem globals names name :
  key_order globals names → name ∈ names ↔ is_Some (globals !! name).
Proof.
  intros [_ Hdom]. rewrite <- elem_of_dom, <- Hdom. by rewrite elem_of_list_to_set.
Qed.

Lemma key_order_exists globals : ∃ names, key_order globals names.
Proof.
  exists (elements (dom globals)). split.
  - apply NoDup_elements.
  - apply list_to_set_elements_L.
Qed.

(** The table built before the compiling loop has one cell for every
    key, the cell whose index is the position of the key. *)
Lemma slot_table globals names :
  key_order globals names →
  ∃ ptrs, fillPtrs (M:=M) (replicate (length names) nilExpr) 0 names ∅ = Ok ptrs ∧
    (∀ g i, ptrs !! g = Some i ↔ names !! i = Some g) ∧
    (∀ g, is_Some (ptrs !! g) ↔ is_Some (globals !! g)).
Proof.
  intros Hord. pose proof Hord as [Hnd _].
  destruct (fillPtrs_spec names 0 ∅ (replicate (length names) nilExpr))
    as (ptrs & Hok & Hin & Hout); [by rewrite length_replicate | done |].
  assert (∀ g i, ptrs !! g = Some i ↔ names !! i = Some g) as Hiff.
  { intros g i. split.
    - intros Hg. destruct (decide (g ∈ names)) as [Hel|Hnel].
      + apply list_elem_of_lookup in Hel as [k Hk].
        rewrite (Hin k g Hk) in Hg. by simplify_eq.
      + rewrite (Hout g Hnel) in Hg. done.
    - intros Hi. by rewrite (Hin i g Hi). }
  exists ptrs. split; [done|]. split; [done|].
  intros g. rewrite <- (key_order_elem globals names g Hord). split.
  - intros [i Hi]. apply Hiff in Hi. by apply list_elem_of_lookup_2 in Hi.
  - intros [k Hk]%list_elem_of_lookup. exists k. by apply Hiff.
Qed.

End batch.

(** ** The entry points on whole terms and batches *)

Section entry_claims.
Context {M Expr : Type}.
Variable nilExpr : Expr.
Variable Fill : FreeExpr M → list Expr → Expr.
Implicit Types (globals : gmap string (Node M)) (ptrs : gmap string Ptr).
Implicit Types (names : list string) (node : Node M).

(** A term whose variables are all bound and whose [Global] nodes all
    have a cell compiles in the empty environment. *)
Lemma CompileFree_scoped node ptrs :
  scoped [] node = true →
  (∀ g, g ∈ global_names node → is_Some (ptrs !! g)) →
  ∃ fe, CompileFree node ptrs [] = Ok fe.
Proof.
  intros Hsc Hglob. apply CompileFree_succeeds; [done| |done].
  intros name Href. exact (scoped_HasFree node [] name Hsc Href).
Qed.

(** A batch whose terms are closed up to references to globals of the
    batch compiles, whatever the order of the names. *)
Lemma CompileAllFrom_succeeds globals names :
  key_order globals names →
  (∀ name node, globals !! name = Some node →
     scoped [] node = true ∧
     ∀ g, g ∈ global_names node → is_Some (globals !! g)) →
  ∃ ptrs cm,
    fillPtrs (M:=M) (replicate (length names) nilExpr) 0 names ∅ = Ok ptrs ∧
    CompileAllFrom nilExpr Fill names globals = Ok cm ∧
    dom cm = dom globals ∧
    ∀ name node, globals !! name = Some node →
      ∃ fe, CompileFree node ptrs [] = Ok fe ∧ cm !! name = Some (Fill fe []).
Proof.
  intros Hord Hwf. pose proof Hord as [Hnd Hdom].
  destruct (slot_table nilExpr globals names Hord) as (ptrs & Hptrs & Hcell & Hkeys).
  assert (∀ name, name ∈ names → compiles globals ptrs name = true) as Hall.
  { intros name [node Hnode]%(key_order_elem globals names name Hord).
    destruct (Hwf name node Hnode) as [Hsc Hglob].
    destruct (CompileFree_scoped node ptrs Hsc) as [fe Hfe].
    - intros g Hg. apply Hkeys. by apply Hglob.
    - unfold compiles. by rewrite Hnode, Hfe. }
  destruct (compileLoop_ok Fill globals ptrs names 0
              (replicate (length names) nilExpr))
    as (compiled & Hloop & Hlen & _ & Hfilled);
    [by rewrite length_replicate | done |].
  rewrite length_replicate in Hlen.
  destruct (fillMap_spec (M:=M) names 0 ∅ compiled)
    as (cm & Hmap & Hin & Hout); [lia | done |].
  assert (∀ name node, globals !! name = Some node →
    ∃ fe, CompileFree node ptrs [] = Ok fe ∧ cm !! name = Some (Fill fe []))
    as Hentries.
  { intros name node Hnode.
    assert (name ∈ names) as [k Hk]%list_elem_of_lookup
      by (apply (key_order_elem globals names name Hord); by eexists).
    destruct (Hfilled k name Hk) as (nd & fe & Hlook & Hfe & Hslot).
    simplify_eq. exists fe. split; [done|].
    by rewrite (Hin k name Hk). }
  exists ptrs, cm. split; [done|]. split.
  { unfold CompileAllFrom. rewrite Hptrs. simpl. rewrite Hloop. simpl. done. }
  split; [|done].
  apply set_eq. intros name. rewrite !elem_of_dom. split.
  - intros [e He]. destruct (decide (name ∈ names)) as [Hel|Hnel].
    + by apply (key_order_elem globals names name Hord).
    + rewrite (Hout name Hnel) in He. done.
  - intros [node Hnode]. destruct (Hentries name node Hnode) as (fe & _ & ->).
    by eexists.
Qed.

(** C1.  [CompileSingle] of a closed term built from [Const], [Var],
    [Abst] and [Appl] only (no [Global] node, every [Var] below an
    abstraction that binds its name) returns an expression and no
    error: the instantiation of the intermediate expression that
    [CompileFree] produces in the empty table and environment. *)
Theorem CompileSingle_closed node :
  closed_local node →
  ∃ free, CompileFree node ∅ [] = Ok free ∧
          CompileSingle Fill node = Ok (Fill free []).
Proof.
  intros [Hnoglob Hsc].
  destruct (CompileFree_scoped node ∅ Hsc) as [fe Hfe].
  - rewrite Hnoglob. by intros g ?%elem_of_nil.
  - exists fe. split; [done|]. unfold CompileSingle. by rewrite Hfe.
Qed.

(** The compiling loop stops at the first global, in the order of the
    names, whose term does not compile. *)
Lemma CompileAllFrom_fails globals names ptrs name node e :
  key_order globals names →
  fillPtrs (M:=M) (replicate (length names) nilExpr) 0 names ∅ = Ok ptrs →
  globals !! name = Some node →
  CompileFree node ptrs [] = Err e →
  ∃ pre bad post node' e',
    names = pre ++ bad :: post ∧
    (∀ x, x ∈ pre → compiles globals ptrs x = true) ∧
    globals !! bad = Some node' ∧
    CompileFree node' ptrs [] = Err e' ∧
    CompileAllFrom nilExpr Fill names globals = Err e'.
Proof.
  intros Hord Hptrs Hnode He.
  assert (name ∈ names) as Hin
    by (apply (key_order_elem globals names name Hord); by eexists).
  assert (compiles globals ptrs name = false) as Hfail
    by (unfold compiles; by rewrite Hnode, He).
  destruct (first_failure (compiles globals ptrs) names name Hin Hfail)
    as (pre & bad & post & Hsplit & Hpre & Hbad).
  assert (bad ∈ names) as [node' Hnode']%(key_order_elem globals names bad Hord).
  { rewrite Hsplit. apply elem_of_app. right. by left. }
  unfold compiles in Hbad. rewrite Hnode' in Hbad.
  destruct (CompileFree node' ptrs []) as [fe|e'|] eqn:He'; [done| |].
  - exists pre, bad, post, node', e'. split; [done|]. split; [done|].
    split; [done|]. split; [done|].
    unfold CompileAllFrom. rewrite Hptrs. simpl. rewrite Hsplit.
    rewrite (compileLoop_err Fill globals ptrs pre bad post node' e'); try done.
    by rewrite length_replicate.
  - by apply CompileFree_no_panic in He'.
Qed.

(** C6.  When the term of some global of the batch does not compile,
    [CompileAll] returns an error and no map: the error of the first
    global, in the order of the names, whose term does not compile.
    That error carries a [Var] or [Global] node of that term and names
    it.  When a single global is at fault the error is the one of its
    term.  No order of the names makes the batch succeed. *)
Theorem CompileAll_rejects_batch globals names ptrs name node e :
  key_order globals names →
  fillPtrs (M:=M) (replicate (length names) nilExpr) 0 names ∅ = Ok ptrs →
  globals !! name = Some node →
  CompileFree node ptrs [] = Err e →
  (∃ pre bad post node' e',
     names = pre ++ bad :: post ∧
     (∀ x, x ∈ pre →
        ∃ nd fe, globals !! x = Some nd ∧ CompileFree nd ptrs [] = Ok fe) ∧
     globals !! bad = Some node' ∧
     CompileFree node' ptrs [] = Err e' ∧
     CompileAllFrom nilExpr Fill names globals = Err e' ∧
     subterm (ErrNode e') node' ∧
     ((∃ x m, undefined_at e' (Var x m) x) ∨
      (∃ g m, undefined_at e' (Global g m) g ∧ globals !! g = None)) ∧
     ((∀ x nd, globals !! x = Some nd → x ≠ name →
         ∃ fe, CompileFree nd ptrs [] = Ok fe) → e' = e)) ∧
  CompileAll nilExpr Fill globals (CompileAllFrom nilExpr Fill names globals) ∧
  (∀ res, CompileAll nilExpr Fill globals res →
     ∃ bad node' e',
       res = Err e' ∧ globals !! bad = Some node' ∧
       CompileFree node' ptrs [] = Err e' ∧ subterm (ErrNode e') node').
Proof.
  intros Hord Hptrs Hnode He.
  destruct (slot_table nilExpr globals names Hord) as (ptrs0 & Hptrs0 & _ & Hkeys).
  rewrite Hptrs in Hptrs0. injection Hptrs0 as <-.
  split; [|split].
  - destruct (CompileAllFrom_fails globals names ptrs name node e Hord Hptrs Hnode He)
      as (pre & bad & post & node' & e' & Hsplit & Hpre & Hnode' & He' & Hres).
    exists pre, bad, post, node', e'. split; [done|]. split.
    { intros x Hx. by apply compiles_true, Hpre. }
    split; [done|]. split; [done|]. split; [done|].
    destruct (CompileFree_Err_node node' ptrs [] e' He') as [Hsub Hkind].
    split; [done|]. split.
    { destruct Hkind as [Hvar|(g & m & Hat & Hnone)]; [by left|].
      right. exists g, m. split; [done|].
      destruct (globals !! g) eqn:Hg; [|done].
      assert (is_Some (ptrs !! g)) as [? ?] by (apply Hkeys; by eexists).
      congruence. }
    intros Honly. destruct (decide (bad = name)) as [->|Hne].
    + congruence.
    + destruct (Honly bad node' Hnode' Hne) as [fe Hfe]. congruence.
  - by exists names.
  - intros res (names' & Hord' & <-).
    destruct (slot_table nilExpr globals names' Hord') as (ptrs' & Hptrs' & _ & Hkeys').
    assert (∀ g, is_Some (ptrs !! g) ↔ is_Some (ptrs' !! g)) as Hsame
      by (intros g; by rewrite Hkeys, Hkeys').
    pose proof (CompileFree_Err_same_keys node ptrs ptrs' [] e Hsame He) as He2.
    destruct (CompileAllFrom_fails globals names' ptrs' name node e Hord' Hptrs' Hnode He2)
      as (pre & bad & post & node' & e' & _ & _ & Hnode' & He' & Hres).
    assert (CompileFree node' ptrs [] = Err e') as Hback.
    { apply (CompileFree_Err_same_keys node' ptrs' ptrs); [|done].
      intros g. by rewrite Hsame. }
    exists bad, node', e'. split; [done|]. split; [done|]. split; [done|].
    by destruct (CompileFree_Err_node node' ptrs [] e' Hback).
Qed.

End entry_claims.

(** ** What becomes of the annotations *)

(** C7, as the code has it.  For [Var], [Abst], [Appl] and [Global] the
    annotation of the node is the annotation of the intermediate
    expression produced.  [Const] returns the expression it wraps as it
    is, so the result carries the annotation of that expression and the
    one of the [Const] node is left behind.  The compiler never looks
    into an annotation: relabelling the annotations of a term relabels
    the result, error node included, in the same way, and changes no
    answer of [HasFree]. *)
Theorem annotations_carried {M : Type} (n : Node M) globals free :
  match n with
  | Const v _ => CompileFree n globals free = Ok v
  | _ => ∀ e, CompileFree n globals free = Ok e → FreeMeta e = MetaInfo n
  end ∧
  (∀ (N : Type) (f : M → N),
     CompileFree (Node_map f n) globals free
     = outcome_map f (FreeExpr_map f) (CompileFree n globals free)) ∧
  (∀ (N : Type) (f : M → N) name,
     HasFree (Node_map f n) name = HasFree n name).
Proof.
  split; [|split].
  - destruct n as [v m|x m|x body m|l r m|g m].
    + done.
    + intros e. simpl. destruct free as [|name rest]; [done|].
      destruct (decide _); [done|]. by intros [= <-].
    + intros e. cbn [CompileFree].
      destruct (negb _); destruct (CompileFree body globals _); simpl;
        try done; by intros [= <-].
    + intros e. rewrite CompileFree_Appl.
      destruct (CompileFree l globals _); simpl; [|done..].
      destruct (CompileFree r globals _); simpl; [|done..].
      by intros [= <-].
    + intros e. simpl. destruct (globals !! g); [|done]. by intros [= <-].
  - intros N f. apply CompileFree_map.
  - intros N f name. apply HasFree_map.
Qed.

(** ** Concrete runs *)

Example trim_example :
  trim (Var "y" tt) ["x"; "y"; "z"] = 1 ∧ trim (Var "z" tt) ["x"; "y"; "z"] = 2.
Proof. split; vm_compute; reflexivity. Qed.

Example identity_example :
  CompileFree (Abst "x" (Var "x" 1) 2) ∅ []
  = Ok (FreeAbst true (FreeVar 1) 2).
Proof. reflexivity. Qed.

Example constK_compiles :
  CompileSingle keep constK = Ok (FreeAbst true (FreeAbst false (FreeVar 1) 2) 3).
Proof. reflexivity. Qed.

Lemma Abst_CompileFree_witness :
  HasFree (Var "x" 1 : Node nat) "y" = false ∧
  CompileFree (Var "x" 1) ∅ ["x"] = Ok (FreeVar 1) ∧
  CompileFree (Abst "y" (Var "x" 1) 2) ∅ ["x"]
    = Ok (FreeAbst false (FreeVar 1) 2) ∧
  HasFree (Var "x" 1 : Node nat) "x" = true ∧
  CompileFree (Abst "x" (Var "x" 1) 2) ∅ []
    = Ok (FreeAbst true (FreeVar 1) 2).
Proof.
  assert (HasFree (Var "x" 1 : Node nat) "y" = false) as Hdead by reflexivity.
  assert (HasFree (Var "x" 1 : Node nat) "x" = true) as Hused by reflexivity.
  assert (CompileFree (Var "x" 1) ∅ ["x"] = Ok (FreeVar 1)) as Hbody
    by reflexivity.
  exact (conj Hdead (conj Hbody
    (conj (proj1 (proj2 (proj1 (Abst_CompileFree "y" (Var "x" 1) 2 ∅ ["x"]) Hdead))
             (FreeVar 1) Hbody)
      (conj Hused
         (proj1 (proj2 (proj1 (proj2 (Abst_CompileFree "x" (Var "x" 1) 2 ∅ []))
                          Hused))
            (FreeVar 1) Hbody))))).
Defined.

Lemma Appl_CompileFree_witness :
  trim (Var "y" 1 : Node nat) ["x"; "y"; "z"] = 1 ∧
  trim (Var "z" 2 : Node nat) ["x"; "y"; "z"] = 2 ∧
  CompileFree (Var "y" 1) ∅ ["y"; "z"] = Ok (FreeVar 1) ∧
  CompileFree (Var "z" 2) ∅ ["z"] = Ok (FreeVar 2) ∧
  CompileFree (Appl (Var "y" 1) (Var "z" 2) 3) ∅ ["x"; "y"; "z"]
    = Ok (FreeAppl 1 2 (FreeVar 1) (FreeVar 2) 3).
Proof.
  assert (CompileFree (Var "y" 1) ∅ ["y"; "z"] = Ok (FreeVar 1)) as Hleft
    by reflexivity.
  assert (CompileFree (Var "z" 2) ∅ ["z"] = Ok (FreeVar 2)) as Hright
    by reflexivity.
  destruct (proj1 (proj2 (proj2 (proj2 (proj2 (proj2 (proj2 (proj2
              (Appl_CompileFree (Var "y" 1) (Var "z" 2) 3 ∅ []))))))))
              "x" "y" "z" eq_refl eq_refl eq_refl eq_refl eq_refl)
    as (Hl & Hr & _ & Hok).
  exact (conj Hl (conj Hr (conj Hleft (conj Hright
    (Hok (FreeVar 1) (FreeVar 2) Hleft Hright))))).
Defined.

Lemma CompileSingle_closed_witness :
  closed_local constK ∧
  ∃ free, CompileFree constK ∅ [] = Ok free ∧
          CompileSingle keep constK = Ok (keep free []).
Proof.
  assert (closed_local constK) as Hc by (split; reflexivity).
  split; [exact Hc | exact (CompileSingle_closed keep constK Hc)].
Defined.

Example mutual_pair_run :
  match CompileAllFrom (FreeVar 0) keep ["B"; "A"] (<["A":=termA]> (<["B":=termB]> ∅)) with
  | Ok cm =>
      cm !! "A" = Some (FreeAbst true (FreeAppl 1 0 (FreeRef 0 1) (FreeVar 2) 3) 4) ∧
      cm !! "B" = Some (FreeAppl 0 0 (FreeRef 1 5) (FreeRef 0 6) 7)
  | _ => False
  end.
Proof. vm_compute. split; reflexivity. Qed.

Example badBatch_run :
  CompileAllFrom (FreeVar 0) keep ["A"; "B"] badBatch
  = Err (mkCompileError (Var "x" 2) "'x' not defined").
Proof. vm_compute. reflexivity. Qed.

Lemma CompileAll_rejects_batch_witness :
  key_order badBatch ["A"; "B"] ∧
  fillPtrs (M:=nat) (replicate (length ["A"; "B"]) (FreeVar 0)) 0 ["A"; "B"] ∅
    = Ok badTable ∧
  badBatch !! "B" = Some (Var "x" 2) ∧
  CompileFree (Var "x" 2) badTable []
    = Err (mkCompileError (Var "x" 2) (not_defined "x")) ∧
  CompileAll (FreeVar 0) keep badBatch
    (CompileAllFrom (FreeVar 0) keep ["A"; "B"] badBatch) ∧
  ∀ res, CompileAll (FreeVar 0) keep badBatch res →
    ∃ bad node' e',
      res = Err e' ∧ badBatch !! bad = Some node' ∧
      CompileFree node' badTable [] = Err e' ∧ subterm (ErrNode e') node'.
Proof.
  assert (key_order badBatch ["A"; "B"]) as Hord.
  { split; refine (bool_decide_unpack _ _); vm_compute; exact I. }
  assert (fillPtrs (M:=nat) (replicate (length ["A"; "B"]) (FreeVar 0)) 0
            ["A"; "B"] ∅ = Ok badTable) as Hptrs
    by (vm_compute; reflexivity).
  assert (badBatch !! "B" = Some (Var "x" 2)) as Hnode by (vm_compute; reflexivity).
  assert (CompileFree (Var "x" 2) badTable []
          = Err (mkCompileError (Var "x" 2) (not_defined "x"))) as He
    by reflexivity.
  destruct (CompileAll_rejects_batch (FreeVar 0) keep badBatch ["A"; "B"] badTable
              "B" (Var "x" 2) _ Hord Hptrs Hnode He) as (_ & Hrun & Hall).
  exact (conj Hord (conj Hptrs (conj Hnode (conj He (conj Hrun Hall))))).
Defined.

(** C7 as stated fails on [Const]: the annotation 2 of the node is nowhere
    in the expression that compiling it yields. *)
Lemma Const_annotation_dropped :
  CompileFree (Const (FreeVar 1) 2) ∅ [] = Ok (FreeVar 1) ∧
  MetaInfo (Const (FreeVar 1) 2) = 2 ∧
  FreeMeta (FreeVar 1) ≠ MetaInfo (Const (FreeVar 1) 2) ∧
  MetaInfo (Const (FreeVar 1) 2) ∉ FreeMetas (FreeVar 1).
Proof.
  split; [reflexivity|]. split; [reflexivity|]. split; [discriminate|].
  simpl. intros [?|?%elem_of_nil]%elem_of_cons; [discriminate | done].
Qed.

(** ** Success and failure of [CompileFree], the other way round *)

Section scope_facts.
Context {M : Type}.
Implicit Types (n : Node M) (globals : gmap string Ptr) (free : list string).

Lemma elem_of_drop_trim side free name :
  name ∈ drop (trim (M:=M) side free) free → name ∈ free.
Proof.
  intros (i & Hi)%list_elem_of_lookup. rewrite lookup_drop in Hi.
  by apply list_elem_of_lookup_2 in Hi.
Qed.

Lemma bind_Ok {A B} (o : outcome M A) (k : A → outcome M B) b :
  o ≫= k = Ok b → ∃ a, o = Ok a ∧ k a = Ok b.
Proof. destruct o as [a| |]; simpl; [by exists a | done | done]. Qed.

Lemma bind_Err {A B} (o : outcome M A) (k : A → outcome M B) e :
  o ≫= k = Err e → o = Err e ∨ ∃ a, o = Ok a ∧ k a = Err e.
Proof.
  destruct o as [a| |]; simpl; [right; by exists a | left; congruence | done].
Qed.

(** [scoped] is [HasFree] read for all names at once. *)
Lemma scoped_iff n scope :
  scoped scope n = true ↔ ∀ name, HasFree n name = true → name ∈ scope.
Proof.
  split; [intros Hsc name; by apply scoped_HasFree|].
  revert scope. induction n as [v m|x m|x body IH m|l IHl r IHr m|g m];
    intros scope Hfree; simpl; try done.
  - apply bool_decide_eq_true, Hfree. simpl. by apply bool_decide_eq_true.
  - apply IH. intros name Href. destruct (decide (name = x)) as [->|Hne]; [by left|].
    right. apply Hfree. simpl. by rewrite bool_decide_eq_true_2, Href.
  - apply andb_true_iff. split.
    + apply IHl. intros name Href. apply Hfree. simpl. by rewrite Href.
    + apply IHr. intros name Href. apply Hfree. simpl. rewrite Href. apply orb_true_r.
Qed.

(** When [CompileFree] succeeds, every name the term references is in the
    environment it was given and every [Global] node of the term names a
    key of the table. *)
Lemma CompileFree_Ok_scope n globals free e :
  CompileFree n globals free = Ok e →
  (∀ name, HasFree n name = true → name ∈ free) ∧
  (∀ g, g ∈ global_names n → is_Some (globals !! g)).
Proof.
  revert free e. induction n as [v m|x m|x body IH m|l IHl r IHr m|g m];
    intros free e.
  - intros _. split; [done | by intros g ?%elem_of_nil].
  - simpl. destruct free as [|name rest]; [done|].
    destruct (decide (name ≠ x)) as [|Heq%dec_stable]; [done|]. subst name.
    intros _. split; [|by intros g ?%elem_of_nil].
    intros name ->%bool_decide_eq_true. by left.
  - cbn [CompileFree]. destruct (HasFree body x) eqn:Hused; cbn [negb];
      intros (b & Hb & _)%bind_Ok; destruct (IH _ _ Hb) as [Hnames Hglob];
      (split; [|done]); simpl;
      intros name [Hne%bool_decide_eq_true Href]%andb_true_iff.
    + pose proof (Hnames name Href) as [?|?]%elem_of_cons; done.
    + by apply Hnames.
  - rewrite CompileFree_Appl.
    intros (el & Hl & (er & Hr & _)%bind_Ok)%bind_Ok.
    destruct (IHl _ _ Hl) as [Hnl Hgl]. destruct (IHr _ _ Hr) as [Hnr Hgr].
    split.
    + simpl. intros name [Href|Href]%orb_true_iff.
      * by apply (elem_of_drop_trim l), Hnl.
      * by apply (elem_of_drop_trim r), Hnr.
    + simpl. intros g [?|?]%elem_of_app; auto.
  - simpl. destruct (globals !! g) as [p|] eqn:Hg; [|done].
    intros _. split; [done|]. intros g' ->%list_elem_of_singleton. by eexists.
Qed.

(** The invariant of the traversal, for terms that need not reference
    the head of the environment because they reference nothing. *)
Lemma CompileFree_succeeds_gen n globals free :
  (∀ g, g ∈ global_names n → is_Some (globals !! g)) →
  (∀ name, HasFree n name = true → name ∈ free) →
  (∀ name, HasFree n name = true →
     ∀ h rest, free = h :: rest → HasFree n h = true) →
  ∃ e, CompileFree n globals free = Ok e.
Proof.
  revert free.
  induction n as [v m|x m|x body IH m|l IHl r IHr m|g m];
    intros free Hglob Hin Hhd.
  - by eexists.
  - apply CompileFree_succeeds; [done..|].
    apply (Hhd x). simpl. by apply bool_decide_eq_true.
  - cbn [CompileFree]. destruct (HasFree body x) eqn:Hused; cbn [negb].
    + destruct (CompileFree_succeeds body globals ([x] ++ free)) as [b Hb].
      * done.
      * intros name Href. destruct (decide (name = x)) as [->|Hne]; [by left|].
        right. apply Hin. simpl. by rewrite bool_decide_eq_true_2, Href.
      * simpl. intros name rest [= <- _]. done.
      * rewrite Hb. eexists; reflexivity.
    + assert (∀ name, HasFree body name = true → HasFree (Abst x body m) name = true)
        as Hup.
      { intros name Href. simpl. rewrite Href.
        rewrite bool_decide_eq_true_2; [done | intros ->; congruence]. }
      destruct (IH free) as [b Hb].
      * done.
      * intros name Href. by apply Hin, Hup.
      * intros name Href h rest Hfree.
        specialize (Hhd name (Hup name Href) h rest Hfree). simpl in Hhd.
        by apply andb_true_iff in Hhd as [_ ?].
      * rewrite Hb. eexists; reflexivity.
  - rewrite CompileFree_Appl.
    destruct (CompileFree_succeeds l globals (drop (trim l free) free)) as [el Hl].
    + intros g Hg. apply Hglob. simpl. apply elem_of_app. by left.
    + intros name Href. apply trim_keeps; [done|].
      apply Hin. simpl. by rewrite Href.
    + intros name rest. apply trim_head.
    + destruct (CompileFree_succeeds r globals (drop (trim r free) free)) as [er Hr].
      * intros g Hg. apply Hglob. simpl. apply elem_of_app. by right.
      * intros name Href. apply trim_keeps; [done|].
        apply Hin. simpl. rewrite Href. apply orb_true_r.
      * intros name rest. apply trim_head.
      * rewrite Hl, Hr. eexists; reflexivity.
  - destruct (Hglob g) as [p Hp]; [simpl; by left|].
    simpl. rewrite Hp. by eexists.
Qed.

(** X2.  A term all of whose variables are bound within it and whose
    [Global] nodes all name keys of the table compiles in every
    environment, not only in the empty one. *)
Theorem CompileFree_closed_any_env n globals free :
  scoped [] n = true →
  Forall (λ g, is_Some (globals !! g)) (global_names n) →
  ∃ e, CompileFree n globals free = Ok e.
Proof.
  intros Hsc Hglob.
  assert (∀ name, HasFree n name = true → False) as Hclosed.
  { intros name Href. by apply (scoped_HasFree n [] name Hsc), elem_of_nil in Href. }
  apply CompileFree_succeeds_gen.
  - by apply Forall_forall.
  - intros name Href. destruct (Hclosed name Href).
  - intros name Href. destruct (Hclosed name Href).
Qed.

(** X3.  An error of [CompileFree] is never a false alarm.  Started in
    an environment that is empty or begins with a name the term
    references, an error at a [Var] names a variable that is free in the
    term and absent from the environment, and an error at a [Global]
    names a [Global] node of the term that has no cell in the table. *)
Theorem CompileFree_Err_genuine n globals free e :
  (∀ h rest, free = h :: rest → HasFree n h = true) →
  CompileFree n globals free = Err e →
  (∃ x m, undefined_at e (Var x m) x ∧ HasFree n x = true ∧ x ∉ free) ∨
  (∃ g m, undefined_at e (Global g m) g ∧
          g ∈ global_names n ∧ globals !! g = None).
Proof.
  revert free. induction n as [v m|x m|x body IH m|l IHl r IHr m|g m];
    intros free Hhd.
  - done.
  - simpl. destruct free as [|name rest].
    + intros [= <-]. left. exists x, m. split; [done|].
      split; [by apply bool_decide_eq_true | apply not_elem_of_nil].
    + specialize (Hhd name rest eq_refl). simpl in Hhd.
      apply bool_decide_eq_true in Hhd as ->.
      by rewrite decide_False by (intros ?; done).
  - cbn [CompileFree]. destruct (HasFree body x) eqn:Hused; cbn [negb];
      (intros [Hb|(b & _ & ?)]%bind_Err; [|done]).
    + destruct (IH ([x] ++ free)) as [(y & m' & Hat & Href & Hnin)|Hg]; [| done | |].
      * simpl. intros h rest [= <- _]. done.
      * left. exists y, m'. split; [done|].
        apply not_elem_of_cons in Hnin as [Hne Hnin]. split; [|done].
        simpl. by rewrite bool_decide_eq_true_2, Href.
      * by right.
    + destruct (IH free) as [(y & m' & Hat & Href & Hnin)|Hg]; [| done | |].
      * intros h rest Hfree. specialize (Hhd h rest Hfree). simpl in Hhd.
        by apply andb_true_iff in Hhd as [_ ?].
      * left. exists y, m'. split; [done|]. split; [|done].
        simpl. rewrite Href.
        rewrite bool_decide_eq_true_2; [done | intros ->; congruence].
      * by right.
  - rewrite CompileFree_Appl.
    intros [Hl|(el & Hl & [Hr|(er & _ & ?)]%bind_Err)]%bind_Err; [| |done].
    + destruct (IHl (drop (trim l free) free))
        as [(y & m' & Hat & Href & Hnin)|(g & m' & Hat & Hg & Hnone)];
        [intros h rest; apply trim_head | done | |].
      * left. exists y, m'. split; [done|]. split; [simpl; by rewrite Href|].
        intros Hin. by apply Hnin, trim_keeps.
      * right. exists g, m'. split; [done|]. split; [|done].
        simpl. apply elem_of_app. by left.
    + destruct (IHr (drop (trim r free) free))
        as [(y & m' & Hat & Href & Hnin)|(g & m' & Hat & Hg & Hnone)];
        [intros h rest; apply trim_head | done | |].
      * left. exists y, m'. split; [done|].
        split; [simpl; rewrite Href; apply orb_true_r|].
        intros Hin. by apply Hnin, trim_keeps.
      * right. exists g, m'. split; [done|]. split; [|done].
        simpl. apply elem_of_app. by right.
  - simpl. destruct (globals !! g) eqn:Hg; [done|]. intros [= <-].
    right. exists g, m. split; [done|]. split; [by left | done].
Qed.

(** X1.  Success of [CompileFree] read backwards: in any environment it
    needs every referenced name to be in the environment and every
    [Global] node to name a key of the table.  In the empty environment
    that is all it needs: a term compiles there exactly when all its
    variables are bound within it and all its [Global] nodes name keys. *)
Theorem CompileFree_Ok_iff n globals :
  (∀ free e, CompileFree n globals free = Ok e →
     (∀ name, HasFree n name = true → name ∈ free) ∧
     (∀ g, g ∈ global_names n → is_Some (globals !! g))) ∧
  ((∃ e, CompileFree n globals [] = Ok e) ↔
     scoped [] n = true ∧ ∀ g, g ∈ global_names n → is_Some (globals !! g)).
Proof.
  split; [intros free e; apply CompileFree_Ok_scope|]. split.
  - intros [e He]. destruct (CompileFree_Ok_scope n globals [] e He) as [Hn Hg].
    split; [by apply scoped_iff | done].
  - intros [Hsc Hg]. apply CompileFree_succeeds; [done| |done].
    by apply scoped_iff.
Qed.

End scope_facts.

(** ** [CompileSingle] and [CompileAll], exactly *)

Section entry_facts.
Context {M Expr : Type}.
Variable nilExpr : Expr.
Variable Fill : FreeExpr M → list Expr → Expr.
Implicit Types (globals : gmap string (Node M)) (ptrs : gmap string Ptr).
Implicit Types (names : list string) (node : Node M).

(** X4.  [CompileSingle] returns an expression exactly for the closed
    terms without [Global] nodes, and an error for every other term. *)
Theorem CompileSingle_Ok_iff node :
  ((∃ x, CompileSingle Fill node = Ok x) ↔ closed_local node) ∧
  ((∃ e, CompileSingle Fill node = Err e) ↔ ¬ closed_local node).
Proof.
  assert ((∃ x, CompileSingle Fill node = Ok x) ↔ closed_local node) as Hiff.
  { split.
    - intros [x Hx]. unfold CompileSingle in Hx.
      apply bind_Ok in Hx as (fe & Hfe & _).
      destruct (CompileFree_Ok_scope node ∅ [] fe Hfe) as [Hn Hg]. split.
      + destruct (global_names node) as [|g rest]; [done|].
        destruct (Hg g) as [p Hp]; [by left | done].
      + by apply scoped_iff.
    - intros [Hnoglob Hsc].
      destruct (CompileFree_scoped node ∅ Hsc) as [fe Hfe].
      + rewrite Hnoglob. by intros g ?%elem_of_nil.
      + exists (Fill fe []). unfold CompileSingle. by rewrite Hfe. }
  split; [done|]. split.
  - intros [e He] Hc. apply Hiff in Hc as [x Hx]. congruence.
  - intros Hopen. unfold CompileSingle.
    destruct (CompileFree node ∅ []) as [fe|e|] eqn:Hc.
    + destruct Hopen. apply Hiff. unfold CompileSingle. rewrite Hc. by eexists.
    + by exists e.
    + by apply CompileFree_no_panic in Hc.
Qed.

(** One run of [CompileAll] on a batch all of whose terms compile against
    the table: the cells, the map and what they hold. *)
Lemma CompileAllFrom_run globals names ptrs :
  key_order globals names →
  fillPtrs (M:=M) (replicate (length names) nilExpr) 0 names ∅ = Ok ptrs →
  (∀ name, name ∈ names → compiles globals ptrs name = true) →
  ∃ compiled cm,
    compileLoop Fill globals ptrs 0 names (replicate (length names) nilExpr)
      = Ok compiled ∧
    CompileAllFrom nilExpr Fill names globals = Ok cm ∧
    length compiled = length names ∧
    dom cm = dom globals ∧
    ∀ name node, globals !! name = Some node →
      ∃ i fe, ptrs !! name = Some i ∧ CompileFree node ptrs [] = Ok fe ∧
              compiled !! i = Some (Fill fe []) ∧ cm !! name = Some (Fill fe []).
Proof.
  intros Hord Hptrs Hall. pose proof Hord as [Hnd Hdom].
  destruct (slot_table nilExpr globals names Hord) as (ptrs0 & Hptrs0 & Hcell & Hkeys).
  rewrite Hptrs in Hptrs0. injection Hptrs0 as <-.
  destruct (compileLoop_ok Fill globals ptrs names 0
              (replicate (length names) nilExpr))
    as (compiled & Hloop & Hlen & _ & Hfilled);
    [by rewrite length_replicate | done |].
  rewrite length_replicate in Hlen.
  destruct (fillMap_spec (M:=M) names 0 ∅ compiled)
    as (cm & Hmap & Hin & Hout); [lia | done |].
  exists compiled, cm. split; [done|]. split.
  { unfold CompileAllFrom. rewrite Hptrs. simpl. rewrite Hloop. simpl. done. }
  split; [done|].
  assert (∀ name node, globals !! name = Some node →
    ∃ i fe, ptrs !! name = Some i ∧ CompileFree node ptrs [] = Ok fe ∧
            compiled !! i = Some (Fill fe []) ∧ cm !! name = Some (Fill fe []))
    as Hentries.
  { intros name node Hnode.
    assert (name ∈ names) as [k Hk]%list_elem_of_lookup
      by (apply (key_order_elem globals names name Hord); by eexists).
    destruct (Hfilled k name Hk) as (nd & fe & Hlook & Hfe & Hslot).
    simplify_eq. exists k, fe. split; [by apply Hcell|]. split; [done|].
    split; [done|]. by rewrite (Hin k name Hk). }
  split; [|done].
  apply set_eq. intros name. rewrite !elem_of_dom. split.
  - intros [e He]. destruct (decide (name ∈ names)) as [Hel|Hnel].
    + by apply (key_order_elem globals names name Hord).
    + rewrite (Hout name Hnel) in He. done.
  - intros [node Hnode].
    destruct (Hentries name node Hnode) as (i & fe & _ & _ & _ & ->). by eexists.
Qed.

(** A run that returns a map has compiled every term. *)
Lemma CompileAllFrom_Ok_all globals names ptrs cm :
  key_order globals names →
  fillPtrs (M:=M) (replicate (length names) nilExpr) 0 names ∅ = Ok ptrs →
  CompileAllFrom nilExpr Fill names globals = Ok cm →
  ∀ name, name ∈ names → compiles globals ptrs name = true.
Proof.
  intros Hord Hptrs Hok name Hin.
  destruct (key_order_elem globals names name Hord) as [Hsome _].
  destruct (Hsome Hin) as [node Hnode].
  unfold compiles. rewrite Hnode.
  destruct (CompileFree node ptrs []) as [fe|e|] eqn:Hc; [done| |].
  - destruct (CompileAllFrom_fails nilExpr Fill globals names ptrs name node e
                Hord Hptrs Hnode Hc) as (? & ? & ? & ? & e' & _ & _ & _ & _ & Hres).
    congruence.
  - by apply CompileFree_no_panic in Hc.
Qed.

(** X5.  [CompileAll] returns a map exactly when every term of the batch
    has all its variables bound within it and all its [Global] nodes name
    keys of the batch; the order in which the names come plays no part in
    that.  The map then has exactly the keys of the batch. *)
Theorem CompileAllFrom_Ok_iff globals names :
  key_order globals names →
  ((∃ cm, CompileAllFrom nilExpr Fill names globals = Ok cm) ↔
   (∀ name node, globals !! name = Some node →
      scoped [] node = true ∧
      ∀ g, g ∈ global_names node → is_Some (globals !! g))) ∧
  (∀ cm, CompileAllFrom nilExpr Fill names globals = Ok cm →
         dom cm = dom globals).
Proof.
  intros Hord.
  destruct (slot_table nilExpr globals names Hord) as (ptrs & Hptrs & Hcell & Hkeys).
  split; [split|].
  - intros [cm Hcm] name node Hnode.
    assert (name ∈ names) as Hin
      by (apply (key_order_elem globals names name Hord); by eexists).
    pose proof (CompileAllFrom_Ok_all globals names ptrs cm Hord Hptrs Hcm name Hin)
      as (nd & fe & Hnd & Hfe)%compiles_true.
    simplify_eq.
    destruct (CompileFree_Ok_scope node ptrs [] fe Hfe) as [Hn Hg].
    split; [by apply scoped_iff|]. intros g Hgl. by apply Hkeys, Hg.
  - intros Hwf.
    destruct (CompileAllFrom_succeeds nilExpr Fill globals names Hord Hwf)
      as (? & cm & _ & Hres & _). by exists cm.
  - intros cm Hcm.
    destruct (CompileAllFrom_run globals names ptrs Hord Hptrs
                (CompileAllFrom_Ok_all globals names ptrs cm Hord Hptrs Hcm))
      as (compiled & cm' & _ & Hres & _ & Hdom & _).
    congruence.
Qed.

(** X6.  When [CompileAll] returns a map, every cell of the table has
    been written with the executable of its own global: the cell that
    the table gives for a name holds what the map gives for that name,
    the instantiation of the compiled term.  A reference to a global
    compiled before that global was reached points to a filled cell in
    the end. *)
Theorem CompileAllFrom_cells globals names cm :
  key_order globals names →
  CompileAllFrom nilExpr Fill names globals = Ok cm →
  ∃ ptrs compiled,
    fillPtrs (M:=M) (replicate (length names) nilExpr) 0 names ∅ = Ok ptrs ∧
    compileLoop Fill globals ptrs 0 names (replicate (length names) nilExpr)
      = Ok compiled ∧
    length compiled = length names ∧
    ∀ name node, globals !! name = Some node →
      ∃ i fe, ptrs !! name = Some i ∧ names !! i = Some name ∧
              CompileFree node ptrs [] = Ok fe ∧
              compiled !! i = Some (Fill fe []) ∧
              cm !! name = Some (Fill fe []).
Proof.
  intros Hord Hcm.
  destruct (slot_table nilExpr globals names Hord) as (ptrs & Hptrs & Hcell & Hkeys).
  destruct (CompileAllFrom_run globals names ptrs Hord Hptrs
              (CompileAllFrom_Ok_all globals names ptrs cm Hord Hptrs Hcm))
    as (compiled & cm' & Hloop & Hres & Hlen & _ & Hentries).
  assert (cm' = cm) as -> by congruence.
  exists ptrs, compiled. split; [done|]. split; [done|]. split; [done|].
  intros name node Hnode.
  destruct (Hentries name node Hnode) as (i & fe & Hi & Hfe & Hslot & Hmap).
  exists i, fe. split; [done|]. split; [by apply Hcell | done].
Qed.

(** X7.  Which error a failing batch returns is left to the order of the
    names: the error of every global whose term does not compile is the
    result of some run of [CompileAll]. *)
Theorem CompileAll_any_failing_error globals ptrs name node e :
  dom ptrs = dom globals →
  globals !! name = Some node →
  CompileFree node ptrs [] = Err e →
  CompileAll nilExpr Fill globals (Err e).
Proof.
  intros Hdoms Hnode He.
  assert (∀ g, is_Some (ptrs !! g) ↔ is_Some (globals !! g)) as Hkeys
    by (intros g; by rewrite <- !elem_of_dom, Hdoms).
  assert (key_order globals (name :: elements (dom globals ∖ {[name]}))) as Hord.
  { split.
    - apply NoDup_cons. split; [|apply NoDup_elements].
      rewrite elem_of_elements, elem_of_difference, elem_of_singleton.
      by intros [_ ?].
    - rewrite list_to_set_cons, list_to_set_elements_L.
      assert (name ∈ dom globals) as Hdom by (apply elem_of_dom; by eexists).
      apply set_eq. intros g.
      rewrite elem_of_union, elem_of_difference, elem_of_singleton. split.
      + intros [->|[? _]]; done.
      + intros Hg. destruct (decide (g = name)) as [->|Hne]; [by left | by right]. }
  exists (name :: elements (dom globals ∖ {[name]})). split; [done|].
  destruct (slot_table nilExpr globals _ Hord) as (ptrs0 & Hptrs0 & _ & Hkeys0).
  assert (CompileFree node ptrs0 [] = Err e) as He0.
  { apply (CompileFree_Err_same_keys node ptrs ptrs0); [|done].
    intros g. by rewrite Hkeys, Hkeys0. }
  pose proof (compileLoop_err Fill globals ptrs0 [] name
                (elements (dom globals ∖ {[name]})) node e 0
                (replicate (length (name :: elements (dom globals ∖ {[name]})))
                   nilExpr)) as Hloop.
  change ([] ++ name :: elements (dom globals ∖ {[name]}))
    with (name :: elements (dom globals ∖ {[name]})) in Hloop.
  unfold CompileAllFrom. rewrite Hptrs0. cbn [mbind outcome_bind].
  rewrite Hloop; [done | by rewrite length_replicate | | done | done].
  by intros x ?%elem_of_nil.
Qed.

End entry_facts.

(** ** What the compiled form keeps of the term *)

Section output_facts.
Context {M : Type}.
Implicit Types (n side : Node M) (globals ptrs : gmap string Ptr).
Implicit Types (free : list string) (scope : list (string * nat)).

(** X8.  Given two tables with the same keys, [CompileFree] fails with the
    same error or succeeds with results that differ only in the cells
    their references hold: the cells of the table reach the output in the
    [Ref] fields and nowhere else. *)
Theorem CompileFree_table_values n ptrs ptrs' free :
  dom ptrs = dom ptrs' →
  same_but_refs (CompileFree n ptrs free) (CompileFree n ptrs' free).
Proof.
  intros Hdoms.
  assert (∀ g, is_Some (ptrs !! g) ↔ is_Some (ptrs' !! g)) as Hkeys
    by (intros g; by rewrite <- !elem_of_dom, Hdoms).
  revert free.
  induction n as [v m|x m|x body IH m|l IHl r IHr m|g m]; intros free.
  - done.
  - simpl. destruct free as [|name rest]; [done|]. by destruct (decide _).
  - cbn [CompileFree]. destruct (negb _);
      [specialize (IH free) | specialize (IH ([x] ++ free))];
      destruct (CompileFree body ptrs _), (CompileFree body ptrs' _);
      simpl in *; congruence.
  - rewrite !CompileFree_Appl.
    specialize (IHl (drop (trim l free) free)).
    specialize (IHr (drop (trim r free) free)).
    destruct (CompileFree l ptrs _), (CompileFree l ptrs' _); simpl in *; try done.
    destruct (CompileFree r ptrs _), (CompileFree r ptrs' _); simpl in *; congruence.
  - simpl. specialize (Hkeys g).
    destruct (ptrs !! g) as [p|], (ptrs' !! g) as [p'|]; simpl; try done.
    + destruct Hkeys as [Hk _].
      assert (is_Some (@None Ptr)) as [? ?] by (apply Hk; by eexists). done.
    + destruct Hkeys as [_ Hk].
      assert (is_Some (@None Ptr)) as [? ?] by (apply Hk; by eexists). done.
Qed.

(** X9.  The annotations of the whole output are those of the whole
    term, node for node and in the same order, a [Const] node standing
    for the expression it wraps: compiling loses none and invents
    none. *)
Theorem CompileFree_metas n globals free e :
  CompileFree n globals free = Ok e → FreeMetas e = NodeMetas n.
Proof.
  revert free e. induction n as [v m|x m|x body IH m|l IHl r IHr m|g m];
    intros free e.
  - by intros [= <-].
  - simpl. destruct free as [|name rest]; [done|].
    destruct (decide _); [done|]. by intros [= <-].
  - cbn [CompileFree]. destruct (negb _);
      intros (b & Hb & [= <-])%bind_Ok; simpl; by rewrite (IH _ _ Hb).
  - rewrite CompileFree_Appl.
    intros (el & Hl & (er & Hr & [= <-])%bind_Ok)%bind_Ok. simpl.
    by rewrite (IHl _ _ Hl), (IHr _ _ Hr).
  - simpl. destruct (globals !! g); [|done]. by intros [= <-].
Qed.

(** X10.  What [CompileFree] hands each side of an application: the
    trimmed environment is what is left of the given one after a prefix
    of names the side does not reference, it still holds every name the
    side references, it is empty or starts with such a name, and
    trimming it again drops nothing. *)
Theorem trim_side_environment side free :
  (∃ pre, free = pre ++ drop (trim side free) free ∧
          length pre = trim side free ∧
          ∀ name, name ∈ pre → HasFree side name = false) ∧
  (∀ name, HasFree side name = true → name ∈ free →
           name ∈ drop (trim side free) free) ∧
  (∀ h rest, drop (trim side free) free = h :: rest → HasFree side h = true) ∧
  trim side (drop (trim side free) free) = 0.
Proof.
  split; [|split; [|split]].
  - exists (take (trim side free) free). split; [by rewrite take_drop|].
    split; [rewrite length_take; pose proof (trim_le side free); lia|].
    intros name (i & Hi & Hlt)%elem_of_take.
    by apply (proj1 (trim_leading side free) i name).
  - intros name. apply trim_keeps.
  - apply trim_head.
  - destruct (drop (trim side free) free) as [|h rest] eqn:Hrest; [done|].
    simpl. by rewrite (trim_head side free h rest Hrest).
Qed.

(** X11.  For a term without [Const] nodes, the output never asks for
    more environment than the machine will have: on a vector with one
    entry per name of the compile-time environment, no variable reference
    reads an empty vector and no application discards more entries than
    there are. *)
Theorem CompileFree_env_ok n globals free e :
  has_const n = false →
  CompileFree n globals free = Ok e →
  env_ok e (length free) = true.
Proof.
  revert free e. induction n as [v m|x m|x body IH m|l IHl r IHr m|g m];
    intros free e Hnc.
  - done.
  - simpl. destruct free as [|name rest]; [done|].
    destruct (decide _); [done|]. intros [= <-].
    apply bool_decide_eq_true_2. simpl. lia.
  - cbn [CompileFree]. simpl in Hnc. destruct (negb _);
      intros (b & Hb & [= <-])%bind_Ok; simpl; by apply (IH _ _ Hnc Hb).
  - rewrite CompileFree_Appl. simpl in Hnc.
    apply orb_false_iff in Hnc as [Hncl Hncr].
    intros (el & Hl & (er & Hr & [= <-])%bind_Ok)%bind_Ok. simpl.
    pose proof (trim_le l free). pose proof (trim_le r free).
    pose proof (IHl _ _ Hncl Hl) as Hokl. pose proof (IHr _ _ Hncr Hr) as Hokr.
    rewrite length_drop in Hokl, Hokr. rewrite Hokl, Hokr.
    by rewrite !bool_decide_eq_true_2 by lia.
  - simpl. destruct (globals !! g); [|done]. by intros [= <-].
Qed.

Lemma bound_to_drop_trim side scope name :
  HasFree side name = true →
  bound_to name (drop (trim side (scope.*1)) scope) = bound_to name scope.
Proof.
  intros Href. induction scope as [|[x d] rest IH]; [done|].
  rewrite fmap_cons. cbn [fst trim].
  destruct (HasFree side x) eqn:Hx; [done|].
  cbn [drop bound_to]. rewrite IH.
  rewrite decide_False; [done | intros ->; congruence].
Qed.

Lemma resolve_agree n globals scope scope' depth e :
  has_const n = false →
  CompileFree n globals (scope.*1) = Ok e →
  (∀ name, HasFree n name = true → bound_to name scope' = bound_to name scope) →
  resolve_pos e (scope.*2) depth = resolve_named globals n scope' depth.
Proof.
  revert scope scope' depth e.
  induction n as [v m|x m|x body IH m|l IHl r IHr m|g m];
    intros scope scope' depth e Hnc.
  - done.
  - simpl. destruct scope as [|[name d] rest]; simpl; [done|].
    destruct (decide (name ≠ x)) as [|Heq%dec_stable]; [done|]. subst name.
    intros [= <-] Hagree. simpl.
    rewrite (Hagree x) by (by apply bool_decide_eq_true). simpl.
    by rewrite decide_True.
  - cbn [CompileFree]. simpl in Hnc. destruct (HasFree body x) eqn:Hused; cbn [negb];
      intros (b & Hb & [= <-])%bind_Ok Hagree; simpl; f_equal.
    + apply (IH ((x, depth) :: scope)); [done | done |].
      intros name Href. simpl. destruct (decide (x = name)) as [|Hne]; [done|].
      apply Hagree. simpl. rewrite Href.
      by rewrite bool_decide_eq_true_2 by (intros ->; done).
    + apply (IH scope); [done | done |].
      intros name Href. simpl.
      rewrite decide_False by (intros ->; congruence).
      apply Hagree. simpl. rewrite Href.
      rewrite bool_decide_eq_true_2; [done | intros ->; congruence].
  - rewrite CompileFree_Appl. simpl in Hnc.
    apply orb_false_iff in Hnc as [Hncl Hncr].
    intros (el & Hl & (er & Hr & [= <-])%bind_Ok)%bind_Ok Hagree. simpl.
    rewrite <- fmap_drop in Hl, Hr. rewrite <- !fmap_drop. f_equal.
    + apply (IHl _ _ _ _ Hncl Hl). intros name Href.
      rewrite bound_to_drop_trim by done. apply Hagree. simpl. by rewrite Href.
    + apply (IHr _ _ _ _ Hncr Hr). intros name Href.
      rewrite bound_to_drop_trim by done. apply Hagree. simpl.
      rewrite Href. apply orb_true_r.
  - simpl. destruct (globals !! g) as [p|] eqn:Hg; [|done].
    by intros [= <-] _.
Qed.

(** X12.  Compiling keeps to which abstraction every variable belongs.
    For a term without [Const] nodes, following the [Used] flags and the
    drop counts of the output on a vector that holds one entry per name
    of the environment leads every variable reference to the entry of
    the innermost abstraction that binds its name in the term, and every
    reference to a global to the cell the table gives for its name. *)
Theorem CompileFree_resolves n globals scope depth e :
  has_const n = false →
  CompileFree n globals (scope.*1) = Ok e →
  resolve_pos e (scope.*2) depth = resolve_named globals n scope depth.
Proof.
  intros Hnc He. by apply resolve_agree.
Qed.

End output_facts.

(** ** [reverse] reverses *)

Section reverse_facts.
Implicit Types (pre mid post free : list string).

Lemma at_index_nat free (k : nat) : InPlace.at_index free (Z.of_nat k) = free !! k.
Proof.
  unfold InPlace.at_index. rewrite decide_True by lia. by rewrite Nat2Z.id.
Qed.

Lemma swap_ends pre a mid b post :
  InPlace.swap (pre ++ a :: mid ++ b :: post)
    (Z.of_nat (length pre)) (Z.of_nat (length pre + S (length mid)))
  = Some (pre ++ b :: mid ++ a :: post).
Proof.
  unfold InPlace.swap. rewrite !at_index_nat, !Nat2Z.id.
  rewrite (list_lookup_middle pre _ a (length pre)) by done. simpl.
  rewrite (lookup_app_r pre) by lia.
  replace (length pre + S (length mid) - length pre) with (S (length mid)) by lia.
  simpl. rewrite (list_lookup_middle mid _ b (length mid)) by done. simpl. f_equal.
  rewrite (insert_app_r_alt pre _ (length pre)) by lia.
  rewrite Nat.sub_diag. simpl.
  rewrite insert_app_r_alt by lia.
  replace (length pre + S (length mid) - length pre) with (S (length mid)) by lia.
  simpl. rewrite insert_app_r_alt by lia. rewrite Nat.sub_diag. done.
Qed.

Lemma snoc_case mid : mid = [] ∨ ∃ mid' b, mid = mid' ++ [b].
Proof.
  induction mid as [|mid' b _] using rev_ind; [by left | right; by eexists _, _].
Qed.

(** The loop between two indices that are as far from the ends as each
    other: it reverses what lies between them. *)
Lemma reverse_loop_spec rounds pre mid post :
  length mid ≤ 2 * rounds + 1 →
  InPlace.reverse_loop rounds (Z.of_nat (length pre))
    (Z.of_nat (length pre + length mid) - 1) (pre ++ mid ++ post)
  = Some (pre ++ reverse mid ++ post).
Proof.
  revert pre mid post. induction rounds as [|rounds IH]; intros pre mid post Hlen.
  - destruct mid as [|a [|b mid]]; simpl in *; [| |lia];
      by rewrite decide_False by lia.
  - destruct mid as [|a mid]; [simpl; by rewrite decide_False by lia|].
    destruct (snoc_case mid) as [->|(mid' & b & ->)];
      [simpl; by rewrite decide_False by lia|].
    rewrite length_cons, length_app in *. change (length [b]) with 1 in *.
    cbn [InPlace.reverse_loop]. rewrite decide_True by lia.
    replace (Z.of_nat (length pre + S (length mid' + 1)) - 1)%Z
      with (Z.of_nat (length pre + S (length mid'))) by lia.
    replace (pre ++ (a :: mid' ++ [b]) ++ post)
      with (pre ++ a :: mid' ++ b :: post)
      by (simpl; by rewrite <- (assoc_L (++) mid')).
    rewrite swap_ends. simpl.
    replace (pre ++ b :: mid' ++ a :: post)
      with ((pre ++ [b]) ++ mid' ++ a :: post) by (by rewrite <- (assoc_L (++) pre)).
    replace (Z.of_nat (length pre) + 1)%Z with (Z.of_nat (length (pre ++ [b])))
      by (rewrite length_app; simpl; lia).
    replace (Z.of_nat (length pre + S (length mid')) - 1)%Z
      with (Z.of_nat (length (pre ++ [b]) + length mid') - 1)%Z
      by (rewrite length_app; simpl; lia).
    rewrite IH by lia.
    rewrite reverse_cons, reverse_snoc. f_equal.
    rewrite <- !(assoc_L (++)). done.
Qed.

(** X13.  [reverse] never indexes outside the slice and leaves it holding
    its elements in reverse order, a slice of no or of one element
    unchanged; the length stays and a second call restores the
    slice. *)
Theorem reverse_reverses free :
  InPlace.reverse free = Some (rev free) ∧
  length (rev free) = length free ∧
  InPlace.reverse free ≫= InPlace.reverse = Some free.
Proof.
  assert (∀ l, InPlace.reverse l = Some (rev l)) as Hrev.
  { intros l. unfold InPlace.reverse.
    pose proof (reverse_loop_spec (length l) [] l []) as Hloop.
    simpl in Hloop. change (Z.of_nat 0) with 0%Z in Hloop.
    rewrite !app_nil_r in Hloop.
    rewrite Hloop by lia. by rewrite rev_alt. }
  split; [done|]. split; [apply length_rev|].
  rewrite Hrev. simpl. by rewrite Hrev, rev_involutive.
Qed.

End reverse_facts.

(** ** Runs of the further properties *)

Example shadow_any_env :
  CompileFree shadow ∅ ["y"; "z"]
  = Ok (FreeAbst true (FreeAppl 3 0 (FreeAbst true (FreeVar 1) 2) (FreeVar 3) 4) 5).
Proof. reflexivity. Qed.

Example shadow_resolved :
  resolve_named ∅ shadow [] 0
  = RAbst (RAppl (RAbst (RVar (Some 1) 1) 2) (RVar (Some 0) 3) 4) 5.
Proof. reflexivity. Qed.

Example reverse_run :
  InPlace.reverse ["a"; "b"; "c"; "d"; "e"] = Some ["e"; "d"; "c"; "b"; "a"].
Proof. reflexivity. Qed.

Lemma CompileFree_closed_any_env_witness :
  scoped [] shadow = true ∧
  Forall (λ g, is_Some ((∅ : gmap string Ptr) !! g)) (global_names shadow) ∧
  ∃ e, CompileFree shadow ∅ ["y"; "z"] = Ok e.
Proof.
  assert (scoped [] shadow = true) as Hsc by reflexivity.
  assert (Forall (λ g, is_Some ((∅ : gmap string Ptr) !! g)) (global_names shadow))
    as Hglob by (simpl; constructor).
  exact (conj Hsc (conj Hglob
    (CompileFree_closed_any_env shadow ∅ ["y"; "z"] Hsc Hglob))).
Defined.

Lemma CompileFree_Err_genuine_witness :
  CompileFree openTerm ∅ [] = Err (mkCompileError (Var "y" 1) (not_defined "y")) ∧
  ((∃ x m, undefined_at (mkCompileError (Var "y" 1) (not_defined "y")) (Var x m) x ∧
           HasFree openTerm x = true ∧ x ∉ ([] : list string)) ∨
   (∃ g m, undefined_at (mkCompileError (Var "y" 1) (not_defined "y")) (Global g m) g ∧
           g ∈ global_names openTerm ∧ (∅ : gmap string Ptr) !! g = None)).
Proof.
  assert (CompileFree openTerm ∅ []
          = Err (mkCompileError (Var "y" 1) (not_defined "y"))) as He
    by reflexivity.
  assert (∀ h rest, ([] : list string) = h :: rest → HasFree openTerm h = true)
    as Hhd by (intros h rest Hfree; discriminate Hfree).
  exact (conj He (CompileFree_Err_genuine openTerm ∅ [] _ Hhd He)).
Defined.

Lemma CompileAllFrom_Ok_iff_witness :
  key_order pairBatch ["B"; "A"] ∧
  ((∃ cm, CompileAllFrom (FreeVar 0) keep ["B"; "A"] pairBatch = Ok cm) ↔
   (∀ name node, pairBatch !! name = Some node →
      scoped [] node = true ∧
      ∀ g, g ∈ global_names node → is_Some (pairBatch !! g))) ∧
  (∀ cm, CompileAllFrom (FreeVar 0) keep ["B"; "A"] pairBatch = Ok cm →
         dom cm = dom pairBatch).
Proof.
  assert (key_order pairBatch ["B"; "A"]) as Hord.
  { split; refine (bool_decide_unpack _ _); vm_compute; exact I. }
  exact (conj Hord (CompileAllFrom_Ok_iff (FreeVar 0) keep pairBatch ["B"; "A"] Hord)).
Defined.

Lemma CompileAllFrom_cells_witness :
  key_order pairBatch ["B"; "A"] ∧
  CompileAllFrom (FreeVar 0) keep ["B"; "A"] pairBatch = Ok pairMap ∧
  ∃ ptrs compiled,
    fillPtrs (M:=nat) (replicate (length ["B"; "A"]) (FreeVar 0)) 0 ["B"; "A"] ∅
      = Ok ptrs ∧
    compileLoop keep pairBatch ptrs 0 ["B"; "A"]
      (replicate (length ["B"; "A"]) (FreeVar 0)) = Ok compiled ∧
    length compiled = length ["B"; "A"] ∧
    ∀ name node, pairBatch !! name = Some node →
      ∃ i fe, ptrs !! name = Some i ∧ ["B"; "A"] !! i = Some name ∧
              CompileFree node ptrs [] = Ok fe ∧
              compiled !! i = Some (keep fe []) ∧
              pairMap !! name = Some (keep fe []).
Proof.
  assert (key_order pairBatch ["B"; "A"]) as Hord.
  { split; refine (bool_decide_unpack _ _); vm_compute; exact I. }
  assert (CompileAllFrom (FreeVar 0) keep ["B"; "A"] pairBatch = Ok pairMap) as Hrun
    by (vm_compute; reflexivity).
  exact (conj Hord (conj Hrun
    (CompileAllFrom_cells (FreeVar 0) keep pairBatch ["B"; "A"] pairMap Hord Hrun))).
Defined.

Lemma CompileAll_any_failing_error_witness :
  dom badTable = dom twoBad ∧
  CompileAll (FreeVar 0) keep twoBad
    (Err (mkCompileError (Var "x" 1) (not_defined "x"))) ∧
  CompileAll (FreeVar 0) keep twoBad
    (Err (mkCompileError (Var "y" 2) (not_defined "y"))).
Proof.
  assert (dom badTable = dom twoBad) as Hdom
    by (refine (bool_decide_unpack _ _); vm_compute; exact I).
  assert (twoBad !! "A" = Some (Var "x" 1)) as HA by (vm_compute; reflexivity).
  assert (twoBad !! "B" = Some (Var "y" 2)) as HB by (vm_compute; reflexivity).
  exact (conj Hdom (conj
    (CompileAll_any_failing_error (FreeVar 0) keep twoBad badTable "A" (Var "x" 1)
       (mkCompileError (Var "x" 1) (not_defined "x")) Hdom HA eq_refl)
    (CompileAll_any_failing_error (FreeVar 0) keep twoBad badTable "B" (Var "y" 2)
       (mkCompileError (Var "y" 2) (not_defined "y")) Hdom HB eq_refl))).
Defined.

Lemma CompileFree_table_values_witness :
  dom badTable = dom swappedTable ∧
  same_but_refs (CompileFree termA badTable []) (CompileFree termA swappedTable []).
Proof.
  assert (dom badTable = dom swappedTable) as Hdom
    by (refine (bool_decide_unpack _ _); vm_compute; exact I).
  exact (conj Hdom (CompileFree_table_values termA badTable swappedTable [] Hdom)).
Defined.

Lemma CompileFree_metas_witness :
  CompileFree shadow ∅ [] = Ok shadowOut ∧
  FreeMetas shadowOut = NodeMetas shadow.
Proof.
  assert (CompileFree shadow ∅ [] = Ok shadowOut) as He by reflexivity.
  exact (conj He (CompileFree_metas shadow ∅ [] shadowOut He)).
Defined.

Lemma CompileFree_env_ok_witness :
  has_const shadow = false ∧
  CompileFree shadow ∅ [] = Ok shadowOut ∧
  env_ok shadowOut (length ([] : list string)) = true.
Proof.
  assert (has_const shadow = false) as Hnc by reflexivity.
  assert (CompileFree shadow ∅ [] = Ok shadowOut) as He by reflexivity.
  exact (conj Hnc (conj He (CompileFree_env_ok shadow ∅ [] shadowOut Hnc He))).
Defined.

Lemma CompileFree_resolves_witness :
  has_const shadow = false ∧
  CompileFree shadow ∅ [] = Ok shadowOut ∧
  resolve_pos shadowOut [] 0 = resolve_named ∅ shadow [] 0.
Proof.
  assert (has_const shadow = false) as Hnc by reflexivity.
  assert (CompileFree shadow ∅ [] = Ok shadowOut) as He by reflexivity.
  exact (conj Hnc (conj He (CompileFree_resolves shadow ∅ [] 0 shadowOut Hnc He))).
Defined.

(** ** Globals that refer to each other *)

Section slot_claims.
Context {M Expr : Type}.
Variable nilExpr : Expr.
Variable Fill : FreeExpr M → list Expr → Expr.
Implicit Types (globals : gmap string (Node M)) (ptrs : gmap string Ptr).
Implicit Types (names : list string) (node : Node M).

(** Where the term has a [Global] node, the output has the reference to
    the cell that the table gives for its name. *)
Lemma CompileFree_Global_at node ptrs free e path g m :
  CompileFree node ptrs free = Ok e →
  subterm_at node path = Some (Global g m) →
  ∃ cell, ptrs !! g = Some cell ∧ free_subterm_at e path = Some (FreeRef cell m).
Proof.
  revert free e path.
  induction node as [v m'|x m'|x body IH m'|l IHl r IHr m'|g' m'];
    intros free e path.
  - intros _. by destruct path as [|[] p].
  - intros _. by destruct path as [|[] p].
  - cbn [CompileFree]. destruct (negb _);
      intros (b & Hb & [= <-])%bind_Ok; destruct path as [|[] p]; simpl; try done;
      apply (IH _ _ _ Hb).
  - rewrite CompileFree_Appl.
    intros (el & Hl & (er & Hr & [= <-])%bind_Ok)%bind_Ok.
    destruct path as [|[] p]; simpl; try done.
    + apply (IHl _ _ _ Hl).
    + apply (IHr _ _ _ Hr).
  - simpl. destruct (ptrs !! g') as [cell|] eqn:Hcell; [|done].
    intros [= <-]. destruct path as [|[] p]; simpl; try done.
    intros [= -> ->]. by exists cell.
Qed.

(** C5.  A batch of two globals [A] and [B] whose terms are closed apart
    from [Global] nodes naming [A] or [B] (so each may refer to the
    other) compiles in every order of the names.  The table built before
    the compiling loop gives [A] and [B] two different cells of the
    [compiled] slice; each term compiles against that table; the cell of
    each global and the entry of the returned map hold the
    instantiation of its compiled term; and wherever a term has a
    [Global] node naming [A] or [B], its compiled form has the reference
    to the cell of [A] or of [B].  In any batch, the table built before
    the loop starts has a cell for every key, a [Global] node naming a
    key compiles to the reference to that cell, and so does every
    [Global] node inside a term of the batch that compiles. *)
Theorem CompileAll_mutual_recursion :
  (∀ (A B : string) (termA termB : Node M),
     A ≠ B →
     scoped [] termA = true → scoped [] termB = true →
     Forall (λ g, g ∈ [A; B]) (global_names termA ++ global_names termB) →
     (∃ res, CompileAll nilExpr Fill (<[A:=termA]> (<[B:=termB]> ∅)) res) ∧
     (∀ res, CompileAll nilExpr Fill (<[A:=termA]> (<[B:=termB]> ∅)) res →
        ∃ cm, res = Ok cm ∧ dom cm = {[A; B]}) ∧
     (∀ names,
        key_order (<[A:=termA]> (<[B:=termB]> ∅)) names →
        ∃ ptrs compiled cm iA iB feA feB,
          fillPtrs (M:=M) (replicate (length names) nilExpr) 0 names ∅ = Ok ptrs ∧
          compileLoop Fill (<[A:=termA]> (<[B:=termB]> ∅)) ptrs 0 names
            (replicate (length names) nilExpr) = Ok compiled ∧
          CompileAllFrom nilExpr Fill names (<[A:=termA]> (<[B:=termB]> ∅))
            = Ok cm ∧
          dom cm = {[A; B]} ∧
          ptrs !! A = Some iA ∧ names !! iA = Some A ∧
          ptrs !! B = Some iB ∧ names !! iB = Some B ∧
          iA ≠ iB ∧
          CompileFree termA ptrs [] = Ok feA ∧
          CompileFree termB ptrs [] = Ok feB ∧
          compiled !! iA = Some (Fill feA []) ∧ cm !! A = Some (Fill feA []) ∧
          compiled !! iB = Some (Fill feB []) ∧ cm !! B = Some (Fill feB []) ∧
          (∀ path m, subterm_at termA path = Some (Global B m) →
                     free_subterm_at feA path = Some (FreeRef iB m)) ∧
          (∀ path m, subterm_at termA path = Some (Global A m) →
                     free_subterm_at feA path = Some (FreeRef iA m)) ∧
          (∀ path m, subterm_at termB path = Some (Global A m) →
                     free_subterm_at feB path = Some (FreeRef iA m)) ∧
          (∀ path m, subterm_at termB path = Some (Global B m) →
                     free_subterm_at feB path = Some (FreeRef iB m)))) ∧
  (∀ globals names,
     key_order globals names →
     ∃ ptrs,
       fillPtrs (M:=M) (replicate (length names) nilExpr) 0 names ∅ = Ok ptrs ∧
       CompileAllFrom nilExpr Fill names globals
         = (compiled ← compileLoop Fill globals ptrs 0 names
                          (replicate (length names) nilExpr) ;
            fillMap compiled 0 names ∅) ∧
       (∀ g, is_Some (globals !! g) →
          ∃ i, ptrs !! g = Some i ∧
               i < length (replicate (length names) nilExpr) ∧
               names !! i = Some g ∧
               ∀ (m : M) free,
                 CompileFree (Global g m) ptrs free = Ok (FreeRef i m)) ∧
       (∀ name node fe path g (m : M),
          globals !! name = Some node →
          CompileFree node ptrs [] = Ok fe →
          subterm_at node path = Some (Global g m) →
          ∃ i, ptrs !! g = Some i ∧
               i < length (replicate (length names) nilExpr) ∧
               names !! i = Some g ∧
               free_subterm_at fe path = Some (FreeRef i m))).
Proof.
  split.
  - intros A B termA termB Hne HscA HscB Hglob.
    set (globals := <[A:=termA]> (<[B:=termB]> ∅)).
    assert (globals !! A = Some termA) as HA by apply lookup_insert_eq.
    assert (globals !! B = Some termB) as HB
      by (unfold globals; rewrite lookup_insert_ne by done; apply lookup_insert_eq).
    assert (dom globals = {[A; B]}) as Hdom.
    { unfold globals. rewrite !dom_insert_L, dom_empty_L.
      by rewrite (right_id_L ∅ (∪)). }
    assert (∀ name node, globals !! name = Some node →
      scoped [] node = true ∧
      ∀ g, g ∈ global_names node → is_Some (globals !! g)) as Hwf.
    { rewrite Forall_forall in Hglob.
      assert (∀ g, g ∈ global_names termA ++ global_names termB →
                   is_Some (globals !! g)) as Hkeys.
      { intros g Hg. specialize (Hglob g Hg).
        apply elem_of_cons in Hglob as [->|Hglob]; [by eexists|].
        apply elem_of_cons in Hglob as [->|Hglob]; [by eexists|].
        by apply elem_of_nil in Hglob. }
      intros name node Hnode. unfold globals in Hnode.
      apply lookup_insert_Some in Hnode as [[<- <-]|[_ Hnode]].
      - split; [done|]. intros g Hg. apply Hkeys, elem_of_app. by left.
      - apply lookup_insert_Some in Hnode as [[<- <-]|[_ Hnode]]; [|done].
        split; [done|]. intros g Hg. apply Hkeys, elem_of_app. by right. }
    assert (∀ names, key_order globals names →
      ∃ ptrs compiled cm iA iB feA feB,
        fillPtrs (M:=M) (replicate (length names) nilExpr) 0 names ∅ = Ok ptrs ∧
        compileLoop Fill globals ptrs 0 names
          (replicate (length names) nilExpr) = Ok compiled ∧
        CompileAllFrom nilExpr Fill names globals = Ok cm ∧
        dom cm = {[A; B]} ∧
        ptrs !! A = Some iA ∧ names !! iA = Some A ∧
        ptrs !! B = Some iB ∧ names !! iB = Some B ∧
        iA ≠ iB ∧
        CompileFree termA ptrs [] = Ok feA ∧
        CompileFree termB ptrs [] = Ok feB ∧
        compiled !! iA = Some (Fill feA []) ∧ cm !! A = Some (Fill feA []) ∧
        compiled !! iB = Some (Fill feB []) ∧ cm !! B = Some (Fill feB []) ∧
        (∀ path m, subterm_at termA path = Some (Global B m) →
                   free_subterm_at feA path = Some (FreeRef iB m)) ∧
        (∀ path m, subterm_at termA path = Some (Global A m) →
                   free_subterm_at feA path = Some (FreeRef iA m)) ∧
        (∀ path m, subterm_at termB path = Some (Global A m) →
                   free_subterm_at feB path = Some (FreeRef iA m)) ∧
        (∀ path m, subterm_at termB path = Some (Global B m) →
                   free_subterm_at feB path = Some (FreeRef iB m))) as Hruns.
    { intros names Hord.
      destruct (slot_table nilExpr globals names Hord)
        as (ptrs & Hptrs & Hcell & Hkeys).
      destruct (CompileAllFrom_succeeds nilExpr Fill globals names Hord Hwf)
        as (ptrs0 & cm0 & Hptrs0 & Hres0 & _).
      rewrite Hptrs in Hptrs0. injection Hptrs0 as <-.
      destruct (CompileAllFrom_run nilExpr Fill globals names ptrs Hord Hptrs
                  (CompileAllFrom_Ok_all nilExpr Fill globals names ptrs cm0
                     Hord Hptrs Hres0))
        as (compiled & cm & Hloop & Hres & _ & Hdomcm & Hentries).
      destruct (Hentries A termA HA) as (iA & feA & HiA & HfeA & HcA & HmA).
      destruct (Hentries B termB HB) as (iB & feB & HiB & HfeB & HcB & HmB).
      pose proof HiA as HnA%Hcell. pose proof HiB as HnB%Hcell.
      assert (∀ fe node path g m i,
        CompileFree node ptrs [] = Ok fe → ptrs !! g = Some i →
        subterm_at node path = Some (Global g m) →
        free_subterm_at fe path = Some (FreeRef i m)) as Hat.
      { intros fe node path g m i Hfe Hi Hsub.
        destruct (CompileFree_Global_at node ptrs [] fe path g m Hfe Hsub)
          as (cell & Hg & Hpos). by simplify_eq. }
      exists ptrs, compiled, cm, iA, iB, feA, feB.
      split; [done|]. split; [done|]. split; [done|].
      split; [by rewrite Hdomcm|].
      split; [done|]. split; [done|]. split; [done|]. split; [done|].
      split; [intros ->; congruence|].
      split; [done|]. split; [done|].
      split; [done|]. split; [done|]. split; [done|]. split; [done|].
      split; [intros path m; by apply Hat|].
      split; [intros path m; by apply Hat|].
      split; intros path m; by apply Hat. }
    split; [|split; [|done]].
    + destruct (key_order_exists globals) as [names Hord].
      eexists. exists names. split; [done | reflexivity].
    + intros res (names & Hord & <-).
      destruct (Hruns names Hord)
        as (ptrs & compiled & cm & ? & ? & ? & ? & _ & _ & Hres & Hdomcm & _).
      by exists cm.
  - intros globals names Hord.
    destruct (slot_table nilExpr globals names Hord) as (ptrs & Hptrs & Hcell & Hkeys).
    exists ptrs. split; [done|]. split.
    { unfold CompileAllFrom. by rewrite Hptrs. }
    split.
    + intros g [i Hi]%Hkeys. exists i. split; [done|].
      pose proof Hi as Hpos%Hcell. split.
      * rewrite length_replicate. by apply lookup_lt_Some in Hpos.
      * split; [done|]. intros m free. simpl. by rewrite Hi.
    + intros name node fe path g m Hnode Hfe Hsub.
      destruct (CompileFree_Global_at node ptrs [] fe path g m Hfe Hsub)
        as (i & Hi & Hpos).
      exists i. split; [done|]. pose proof Hi as Hn%Hcell.
      split; [rewrite length_replicate; by apply lookup_lt_Some in Hn|]. done.
Qed.

End slot_claims.

Example pairBatch_refs :
  subterm_at termA [InBody; InLeft] = Some (Global "B" 1) ∧
  subterm_at termB [InLeft] = Some (Global "A" 5) ∧
  CompileAllFrom (FreeVar 0) keep ["A"; "B"] pairBatch
  = Ok (<["A" := FreeAbst true (FreeAppl 1 0 (FreeRef 1 1) (FreeVar 2) 3) 4]>
          (<["B" := FreeAppl 0 0 (FreeRef 0 5) (FreeRef 1 6) 7]> ∅)).
Proof. split; [reflexivity|]. split; [reflexivity|]. vm_compute. reflexivity. Qed.

Lemma CompileAll_mutual_recursion_witness :
  "A" ≠ "B" ∧
  scoped [] termA = true ∧ scoped [] termB = true ∧
  Forall (λ g, g ∈ ["A"; "B"]) (global_names termA ++ global_names termB) ∧
  key_order pairBatch ["B"; "A"] ∧
  CompileAllFrom (FreeVar 0) keep ["B"; "A"] pairBatch = Ok pairMap ∧
  ∃ ptrs compiled cm iA iB feA feB,
    fillPtrs (M:=nat) (replicate (length ["B"; "A"]) (FreeVar 0)) 0 ["B"; "A"] ∅
      = Ok ptrs ∧
    compileLoop keep pairBatch ptrs 0 ["B"; "A"]
      (replicate (length ["B"; "A"]) (FreeVar 0)) = Ok compiled ∧
    CompileAllFrom (FreeVar 0) keep ["B"; "A"] pairBatch = Ok cm ∧
    dom cm = {["A"; "B"]} ∧
    ptrs !! "A" = Some iA ∧ ["B"; "A"] !! iA = Some "A" ∧
    ptrs !! "B" = Some iB ∧ ["B"; "A"] !! iB = Some "B" ∧
    iA ≠ iB ∧
    CompileFree termA ptrs [] = Ok feA ∧
    CompileFree termB ptrs [] = Ok feB ∧
    compiled !! iA = Some (keep feA []) ∧ cm !! "A" = Some (keep feA []) ∧
    compiled !! iB = Some (keep feB []) ∧ cm !! "B" = Some (keep feB []) ∧
    (∀ path m, subterm_at termA path = Some (Global "B" m) →
               free_subterm_at feA path = Some (FreeRef iB m)) ∧
    (∀ path m, subterm_at termA path = Some (Global "A" m) →
               free_subterm_at feA path = Some (FreeRef iA m)) ∧
    (∀ path m, subterm_at termB path = Some (Global "A" m) →
               free_subterm_at feB path = Some (FreeRef iA m)) ∧
    (∀ path m, subterm_at termB path = Some (Global "B" m) →
               free_subterm_at feB path = Some (FreeRef iB m)).
Proof.
  assert ("A" ≠ "B") as Hne by discriminate.
  assert (scoped [] termA = true) as HscA by reflexivity.
  assert (scoped [] termB = true) as HscB by reflexivity.
  assert (Forall (λ g, g ∈ ["A"; "B"]) (global_names termA ++ global_names termB))
    as Hglob by (simpl; repeat constructor).
  assert (key_order pairBatch ["B"; "A"]) as Hord.
  { split; refine (bool_decide_unpack _ _); vm_compute; exact I. }
  assert (CompileAllFrom (FreeVar 0) keep ["B"; "A"] pairBatch = Ok pairMap) as Hrun
    by (vm_compute; reflexivity).
  exact (conj Hne (conj HscA (conj HscB (conj Hglob (conj Hord (conj Hrun
    (proj2 (proj2 (proj1 (CompileAll_mutual_recursion (FreeVar 0) keep)
                     "A" "B" termA termB Hne HscA HscB Hglob))
       ["B"; "A"] Hord))))))).
Defined.
